(** * HTML image extractor: a shallow embedding of [extract_images.py]

    The development follows the source file top to bottom:
    - Python [str] values are lists of 8-bit characters ([list ascii]);
    - decoded images are lists of byte values ([list N], each below 256);
    - the regular expression of [extract_base64_images] is embedded as the
      matcher that Python's backtracking [re] engine runs for that one
      pattern (ordered alternation, greedy payload);
    - [re.sub] is a left-to-right scan into tokens followed by one call of
      the callback per match, in scan order;
    - the callback's effects (the [nonlocal] counter, the files it writes,
      the lines it prints) are threaded through an explicit [World]. *)

From Equations Require Import Equations.
From Stdlib Require Import Ascii String DecimalString DecimalNat.
From Stdlib Require Import List Arith Lia Bool NArith.
Import ListNotations.

Local Open Scope list_scope.
Local Open Scope char_scope.

(** ** Strings *)

Definition str := list ascii.

(** String literals of the source, as character lists. *)
Definition lit (s : string) : str := list_ascii_of_string s.
Arguments lit s%_string.

Definition ascii_eqb (a b : ascii) : bool := Ascii.eqb a b.

Fixpoint str_eqb (a b : str) : bool :=
  match a, b with
  | [], [] => true
  | x :: a', y :: b' => ascii_eqb x y && str_eqb a' b'
  | _, _ => false
  end.

(** [strip_prefix p s] is [Some r] when [s = p ++ r] (a literal of the
    pattern matched at the head of [s]). *)
Fixpoint strip_prefix (p s : str) : option str :=
  match p with
  | [] => Some s
  | x :: p' =>
      match s with
      | y :: s' => if ascii_eqb x y then strip_prefix p' s' else None
      | [] => None
      end
  end.

(** ** The pattern

    [r'data:image/(png|jpeg|jpg|gif|webp|svg\+xml);base64,([A-Za-z0-9+/=]+)'] *)

Definition in_range (lo hi c : ascii) : bool :=
  (N_of_ascii lo <=? N_of_ascii c)%N && (N_of_ascii c <=? N_of_ascii hi)%N.

(** The character class [[A-Za-z0-9+/=]]. *)
Definition is_b64char (c : ascii) : bool :=
  in_range "A" "Z" c || in_range "a" "z" c || in_range "0" "9" c
  || ascii_eqb c "+" || ascii_eqb c "/" || ascii_eqb c "=".

(** The alternatives of group 1, in the order the pattern lists them. *)
Definition subtypes : list str :=
  [lit "png"; lit "jpeg"; lit "jpg"; lit "gif"; lit "webp"; lit "svg+xml"].

(** Greedy [[...]+]/[[...]*]: the longest run of class characters. *)
Fixpoint take_b64 (s : str) : str * str :=
  match s with
  | c :: s' =>
      if is_b64char c then let (run, rest) := take_b64 s' in (c :: run, rest)
      else ([], s)
  | [] => ([], [])
  end.

(** A match object: the two capture groups.  [group0] is the matched text. *)
Record Match := mkMatch { group1 : str; group2 : str }.

Definition group0 (m : Match) : str :=
  lit "data:image/" ++ group1 m ++ lit ";base64," ++ group2 m.

(** What follows group 1: the literal [;base64,] and a non-empty payload.
    Nothing follows the payload in the pattern, so the greedy run is kept. *)
Definition match_payload (s : str) : option str :=
  match strip_prefix (lit ";base64,") s with
  | Some s' =>
      match fst (take_b64 s') with
      | [] => None
      | payload => Some payload
      end
  | None => None
  end.

(** Ordered alternation with backtracking: the first alternative after
    which the remainder of the pattern matches. *)
Fixpoint match_alt (alts : list str) (s : str) : option Match :=
  match alts with
  | [] => None
  | alt :: alts' =>
      match strip_prefix alt s with
      | Some s' =>
          match match_payload s' with
          | Some payload => Some (mkMatch alt payload)
          | None => match_alt alts' s
          end
      | None => match_alt alts' s
      end
  end.

(** The pattern tried at the head of [s] ([pattern.match] at one position). *)
Definition match_here (s : str) : option Match :=
  match strip_prefix (lit "data:image/") s with
  | Some s' => match_alt subtypes s'
  | None => None
  end.

(** ** Scanning ([re.sub] walks the text left to right; a search resumes
    where the previous match ended, and a position with no match yields its
    character unchanged) *)

Inductive token :=
| TChar (c : ascii)
| TMatch (m : Match).

Equations? finditer (s : str) : list token by wf (length s) lt :=
  finditer [] := [];
  finditer (c :: tl) with match_here (c :: tl) => {
    | Some m := TMatch m :: finditer (skipn (length (group0 m) - 1) tl);
    | None := TChar c :: finditer tl }.
Proof.
  all: try (pose proof (length_skipn (length (group0 m) - 1) tl)); simpl in *; lia.
Qed.

(** ** File names and paths *)

(** [f"{n:04d}"]: the decimal digits of [n], padded on the left with zeros
    to a width of at least four. *)
Definition format_04d (n : nat) : str :=
  let d := Nat.to_uint n in
  lit (NilEmpty.string_of_uint (Nat.iter (4 - Decimal.nb_digits d) Decimal.D0 d)).

Definition starts_with (c : ascii) (s : str) : bool :=
  match s with
  | x :: _ => ascii_eqb x c
  | [] => false
  end.

Definition ends_with (c : ascii) (s : str) : bool := starts_with c (rev s).

(** [os.path.join(a, b)] with the POSIX separator. *)
Definition path_join (a b : str) : str :=
  if starts_with "/" b then b
  else match a with
       | [] => b
       | _ => if ends_with "/" a then a ++ b else a ++ lit "/" ++ b
       end.

(** ** [pathlib] on POSIX paths

    [Path(s)] keeps the components of [s] between slashes, dropping empty
    ones and [.]; a leading slash makes the path absolute, and exactly two
    leading slashes are kept as they are. *)

(** [s.split('/')]. *)
Fixpoint split_slash (s : str) : list str :=
  match s with
  | [] => [[]]
  | c :: s' =>
      if ascii_eqb c "/" then [] :: split_slash s'
      else match split_slash s' with
           | p :: ps => (c :: p) :: ps
           | [] => [[c]]
           end
  end.

Definition path_parts (s : str) : list str :=
  filter (fun p => negb (str_eqb p [] || str_eqb p (lit "."))) (split_slash s).

Definition is_absolute (s : str) : bool := starts_with "/" s.

Fixpoint join_slash (ps : list str) : str :=
  match ps with
  | [] => []
  | [p] => p
  | p :: ps' => p ++ lit "/" ++ join_slash ps'
  end.

(** [Path(s).root]: one slash, or two when [s] begins with exactly two. *)
Definition path_root (s : str) : str :=
  if starts_with "/" s then
    if starts_with "/" (tl s) && negb (starts_with "/" (tl (tl s)))
    then lit "//" else lit "/"
  else [].

(** [str(Path(s))], the string handed to [open]. *)
Definition path_str (s : str) : str :=
  if is_absolute s then path_root s ++ join_slash (path_parts s)
  else match path_parts s with
       | [] => lit "."
       | ps => join_slash ps
       end.

(** [Path(s).name]: the last component, empty when there is none. *)
Definition path_name (s : str) : str := last (path_parts s) [].

(** [Path(s).parent], as absoluteness and components. *)
Definition path_parent (s : str) : bool * list str :=
  (is_absolute s, removelast (path_parts s)).

(** [name.rfind('.')]. *)
Fixpoint rfind_dot (name : str) : option nat :=
  match name with
  | [] => None
  | c :: name' =>
      match rfind_dot name' with
      | Some i => Some (S i)
      | None => if ascii_eqb c "." then Some 0 else None
      end
  end.

(** The split of a name that [suffix] and [stem] share: the last dot, when
    it is neither the first nor the last character. *)
Definition suffix_index (name : str) : option nat :=
  match rfind_dot name with
  | Some i => if ((0 <? i) && (i <? length name - 1))%nat then Some i else None
  | None => None
  end.

Definition path_suffix (s : str) : str :=
  match suffix_index (path_name s) with
  | Some i => skipn i (path_name s)
  | None => []
  end.

Definition path_stem (s : str) : str :=
  match suffix_index (path_name s) with
  | Some i => firstn i (path_name s)
  | None => path_name s
  end.

(** ** The world the script acts on *)

(** File contents: byte values, each below 256. *)
Definition bytes := list N.

(** Lines printed on standard output, with the data they are formatted
    from.  [PExtracted] carries the file name and the decoded length (the
    source prints it in megabytes); [PError] carries the sequence number (the
    source adds the exception's text); [PDone] carries the two sizes from
    which the source prints the new size and the reduction; [PToUse] stands
    for the closing hints. *)
Inductive event :=
| PStart
| PExtracted (filename : str) (size : nat)
| PError (n : nat)
| PTotal (n : nat)
| PNotFound (input_file : str)
| POriginalSize (size : nat)
| PReading (input_file : str)
| PWriting (output_file : str)
| PDone (new_size original_size : nat)
| PToUse (output_file : str).

(** Directories created, files written (latest write first, so that the
    writes of a run are a prefix of [files]) and lines printed (oldest
    first).  A file is known by the path string it was opened with; two
    spellings of one location, or links, are not identified. *)
Record World := mkWorld {
  dirs : list str;
  files : list (str * bytes);
  stdout : list event
}.

Definition print (e : event) (w : World) : World :=
  mkWorld (dirs w) (files w) (stdout w ++ [e]).

(** [open(path, 'wb')] followed by [f.write(data)]. *)
Definition write_file (path : str) (data : bytes) (w : World) : World :=
  mkWorld (dirs w) ((path, data) :: files w) (stdout w).

(** An [open(path, 'wb')] or [f.write(data)] that raises: the file is as it
    was when [open] failed, and holds what the attempt left when [open] had
    already created or truncated it. *)
Definition failed_write (left : option bytes) (path : str) (w : World) : World :=
  match left with
  | Some l => write_file path l w
  | None => w
  end.

(** The contents a path holds: those of its latest write. *)
Fixpoint read_file (path : str) (fl : list (str * bytes)) : option bytes :=
  match fl with
  | [] => None
  | (p, d) :: fl' => if str_eqb p path then Some d else read_file path fl'
  end.

(** Whether [Path(s)] is a regular file. *)
Definition path_is_file (s : str) (w : World) : bool :=
  match read_file (path_str s) (files w) with
  | Some _ => true
  | None => false
  end.

(** Whether the path [p] (as [str(Path(...))] gives it) is a directory: one
    that is always there (the current directory, the root, and their parents
    [..]), or one that was created. *)
Definition is_dir (p : str) (w : World) : bool :=
  forallb (str_eqb (lit "..")) (path_parts p) || existsb (str_eqb p) (dirs w).

(** [str(Path(s).parent)]. *)
Definition path_dirname (s : str) : str :=
  let ps := removelast (path_parts s) in
  if is_absolute s then path_root s ++ join_slash ps
  else match ps with
       | [] => lit "."
       | _ => join_slash ps
       end.

(** Whether [Path(d).mkdir(exist_ok=True)] raises: the name is taken by
    something that is not a directory, or the directory is to be created and
    its parent is missing. *)
Definition mkdir_raises (d : str) (w : World) : bool :=
  negb (is_dir (path_str d) w)
  && (path_is_file d w || negb (is_dir (path_dirname d) w)).

(** [Path(d).mkdir(exist_ok=True)] when it returns: nothing happens for a
    directory that exists, and the directory is there afterwards otherwise. *)
Definition mkdir (d : str) (w : World) : World :=
  if is_dir (path_str d) w then w
  else mkWorld (path_str d :: dirs w) (files w) (stdout w).

(** ** [extract_base64_images] *)

Section Extractor.

(** [base64.b64decode] on a payload: the decoded bytes, or [None] when it
    raises. *)
Variable b64decode : str -> option bytes.

(** Whether [open(path, 'wb')] and [f.write(data)] both go through; when
    one of them raises, the exception is caught by the same [except] clause
    as a decoding error. *)
Variable writable : str -> bytes -> bool.

(** What a failed attempt leaves at [path]: [None] when [open] itself fails
    and the file is as it was; [Some l] when [open] created or truncated the
    file and the write broke off, leaving [l] (empty, or a part of
    [data]). *)
Variable leftover : str -> bytes -> option bytes.

(** The callback.  Its state is the [nonlocal] counter and the world. *)
Definition replace_base64 (output_dir : str) (m : Match)
    (st : nat * World) : str * (nat * World) :=
  let image_count := fst st + 1 in
  let img_type := group1 m in
  let base64_data := group2 m in
  let extension :=
    if str_eqb img_type (lit "svg+xml") then lit "svg" else img_type in
  let filename := lit "image_" ++ format_04d image_count ++ lit "." ++ extension in
  let filepath := path_join output_dir filename in
  match b64decode base64_data with
  | Some image_data =>
      if writable filepath image_data then
        (lit "./" ++ output_dir ++ lit "/" ++ filename,
         (image_count,
          print (PExtracted filename (length image_data))
                (write_file filepath image_data (snd st))))
      else (group0 m,
            (image_count,
             print (PError image_count)
                   (failed_write (leftover filepath image_data) filepath (snd st))))
  | None => (group0 m, (image_count, print (PError image_count) (snd st)))
  end.

(** [re.sub(pattern, repl, text)] with a callable [repl]: the tokens of
    the scan in order, the callback called once per match. *)
Fixpoint sub_tokens {S : Type} (repl : Match -> S -> str * S)
    (toks : list token) (st : S) : str * S :=
  match toks with
  | [] => ([], st)
  | TChar c :: toks' =>
      let (out, st') := sub_tokens repl toks' st in (c :: out, st')
  | TMatch m :: toks' =>
      let (r, st1) := repl m st in
      let (out, st2) := sub_tokens repl toks' st1 in
      (r ++ out, st2)
  end.

Definition re_sub {S : Type} (repl : Match -> S -> str * S)
    (text : str) (st : S) : str * S :=
  sub_tokens repl (finditer text) st.

(** The function, from its first statement on when that statement, the
    [mkdir], returns. *)
Definition extract_base64_images (html_content output_dir : str)
    (w : World) : str * World :=
  let w := mkdir output_dir w in
  let w := print PStart w in
  let '(modified_html, (image_count, w)) :=
    re_sub (replace_base64 output_dir) html_content (0, w) in
  (modified_html, print (PTotal image_count) w).

(** A call of the function: when the [mkdir] raises, the exception leaves
    the call ([None]) before anything is printed, scanned or written. *)
Definition extract_base64_images_call (html_content output_dir : str)
    (w : World) : option (str * World) :=
  if mkdir_raises output_dir w then None
  else Some (extract_base64_images html_content output_dir w).

End Extractor.

(** ** [process_html_file]

    The call is modelled with the exceptions that its file operations and
    its arithmetic raise: opening a directory as the input, the [mkdir] of
    [extract_base64_images], an output that cannot be written, and the
    division by the original size.  Printing is taken to succeed. *)

(** How a call ends: it returns, or an exception leaves it. *)
Inductive ending := Returned | Raised.

(** [Path.exists]. *)
Definition path_exists (p : str) (w : World) : bool :=
  match read_file p (files w) with
  | Some _ => true
  | None => is_dir p w
  end.

Section Pipeline.

Variable b64decode : str -> option bytes.
Variable writable : str -> bytes -> bool.
Variable leftover : str -> bytes -> option bytes.

(** The text of a file as the script reads it (UTF-8, Latin-1 when that
    fails) and the bytes of a text as it writes it (UTF-8). *)
Variable decode_text : bytes -> str.
Variable encode_text : str -> bytes.

(** The size [stat] reports for a directory. *)
Variable dir_size : nat.

Definition process_html_file (input_file : str) (output_file : option str)
    (w : World) : ending * World :=
  let input_path := path_str input_file in
  if negb (path_exists input_path w) then
    (Returned, print (PNotFound input_file) w)
  else
    let output_file :=
      match output_file with
      | None => path_stem input_file ++ lit "_optimized" ++ path_suffix input_file
      | Some o => o
      end in
    let output_path := path_str output_file in
    let original_size :=
      match read_file input_path (files w) with
      | Some data => length data
      | None => dir_size
      end in
    let w := print (POriginalSize original_size) w in
    let w := print (PReading input_file) w in
    match read_file input_path (files w) with
    | None => (Raised, w)
    | Some data =>
        let html_content := decode_text data in
        match extract_base64_images_call b64decode writable leftover
                html_content (lit "images") w with
        | None => (Raised, w)
        | Some (modified_html, w) =>
            let w := print (PWriting output_file) w in
            if writable output_path (encode_text modified_html) then
              let w := write_file output_path (encode_text modified_html) w in
              let new_size := length (encode_text modified_html) in
              if (original_size =? 0)%nat then (Raised, w)
              else (Returned,
                    print (PToUse output_file)
                      (print (PDone new_size original_size) w))
            else
              (Raised,
               failed_write (leftover output_path (encode_text modified_html))
                 output_path w)
        end
    end.

End Pipeline.

(** ** [base64.b64decode] as CPython implements it

    [base64.b64decode(s)] encodes a [str] argument to ASCII and hands it to
    [binascii.a2b_base64] in its default, non-strict mode. *)

Module Base64.

Local Open Scope N_scope.

(** [table_a2b_base64]: the 6-bit value of an alphabet character, 255
    elsewhere. *)
Definition table_a2b_base64 (c : N) : N :=
  if (65 <=? c) && (c <=? 90) then c - 65
  else if (97 <=? c) && (c <=? 122) then c - 97 + 26
  else if (48 <=? c) && (c <=? 57) then c - 48 + 52
  else if c =? 43 then 62
  else if c =? 47 then 63
  else 255.

Definition BASE64_PAD : N := 61.

(** A value stored into an [unsigned char]. *)
Definition u8 (x : N) : N := N.land x 255.

(** The decoding loop of [a2b_base64] and the check that follows it.
    [quad_pos], [leftchar], [pads] are the C locals; [out] is the output
    written so far. *)
Fixpoint a2b_loop (data : list N) (quad_pos leftchar pads : N)
    (out : bytes) : option bytes :=
  match data with
  | [] => if quad_pos =? 0 then Some out else None
  | this_ch :: data' =>
      if this_ch =? BASE64_PAD then
        if (2 <=? quad_pos) && (4 <=? quad_pos + (pads + 1)) then Some out
        else a2b_loop data' quad_pos leftchar
               (if 2 <=? quad_pos then pads + 1 else pads) out
      else
        let this_ch := table_a2b_base64 this_ch in
        if 64 <=? this_ch then a2b_loop data' quad_pos leftchar pads out
        else
          match quad_pos with
          | 0 => a2b_loop data' 1 this_ch 0 out
          | 1 => a2b_loop data' 2 (u8 (N.land this_ch 15)) 0
                   (out ++ [u8 (N.lor (N.shiftl leftchar 2) (N.shiftr this_ch 4))])
          | 2 => a2b_loop data' 3 (u8 (N.land this_ch 3)) 0
                   (out ++ [u8 (N.lor (N.shiftl leftchar 4) (N.shiftr this_ch 2))])
          | _ => a2b_loop data' 0 0 0
                   (out ++ [u8 (N.lor (N.shiftl leftchar 6) this_ch)])
          end
  end.

Definition a2b_base64 (data : list N) : option bytes := a2b_loop data 0 0 0 [].

(** [str.encode('ascii')]: fails on a character above 127. *)
Definition encode_ascii (s : str) : option (list N) :=
  if forallb (fun c => N_of_ascii c <? 128) s then Some (map N_of_ascii s)
  else None.

Definition b64decode (s : str) : option bytes :=
  match encode_ascii s with
  | Some data => a2b_base64 data
  | None => None
  end.

(** The standard alphabet ([table_b2a_base64]). *)
Definition table_b2a_base64 (v : N) : ascii :=
  ascii_of_N
    (if v <? 26 then v + 65
     else if v <? 52 then v - 26 + 97
     else if v <? 62 then v - 52 + 48
     else if v =? 62 then 43 else 47).

(** Encoding as [base64.b64encode] produces it (RFC 4648 with padding);
    used to state which payloads are the encoding of given bytes. *)
Fixpoint b64encode (x : bytes) : str :=
  match x with
  | [] => []
  | [a] =>
      [table_b2a_base64 (N.shiftr a 2);
       table_b2a_base64 (N.shiftl (N.land a 3) 4); "="%char; "="%char]
  | [a; b] =>
      [table_b2a_base64 (N.shiftr a 2);
       table_b2a_base64 (N.lor (N.shiftl (N.land a 3) 4) (N.shiftr b 4));
       table_b2a_base64 (N.shiftl (N.land b 15) 2); "="%char]
  | a :: b :: c :: x' =>
      table_b2a_base64 (N.shiftr a 2)
      :: table_b2a_base64 (N.lor (N.shiftl (N.land a 3) 4) (N.shiftr b 4))
      :: table_b2a_base64 (N.lor (N.shiftl (N.land b 15) 2) (N.shiftr c 6))
      :: table_b2a_base64 (N.land c 63)
      :: b64encode x'
  end.

End Base64.

(** * Properties *)

Arguments is_b64char : simpl never.

(** ** Strings and the matcher *)

Lemma ascii_eqb_eq (a b : ascii) : ascii_eqb a b = true <-> a = b.
Proof. apply Ascii.eqb_eq. Qed.

Lemma ascii_eqb_refl (a : ascii) : ascii_eqb a a = true.
Proof. apply ascii_eqb_eq. reflexivity. Qed.

Lemma ascii_eqb_neq (a b : ascii) : ascii_eqb a b = false <-> a <> b.
Proof.
  rewrite <- ascii_eqb_eq. destruct (ascii_eqb a b); split; congruence.
Qed.

Lemma str_eqb_eq (a b : str) : str_eqb a b = true <-> a = b.
Proof.
  revert b. induction a as [|x a IH]; intros [|y b]; simpl;
    try (split; congruence).
  rewrite andb_true_iff, ascii_eqb_eq, IH. split.
  - intros [-> ->]. reflexivity.
  - intros H. injection H. auto.
Qed.

Lemma str_eqb_refl (a : str) : str_eqb a a = true.
Proof. apply str_eqb_eq. reflexivity. Qed.

Lemma str_eqb_neq (a b : str) : str_eqb a b = false <-> a <> b.
Proof.
  rewrite <- str_eqb_eq. destruct (str_eqb a b); split; congruence.
Qed.

Lemma strip_prefix_spec (p s r : str) :
  strip_prefix p s = Some r <-> s = p ++ r.
Proof.
  revert s. induction p as [|x p IH]; intros s; simpl.
  - split; congruence.
  - destruct s as [|y s]; [split; discriminate|].
    destruct (ascii_eqb x y) eqn:E.
    + apply ascii_eqb_eq in E. subst y. rewrite IH. split; congruence.
    + apply ascii_eqb_neq in E. split; [discriminate|]. congruence.
Qed.

Lemma strip_prefix_app (p r : str) : strip_prefix p (p ++ r) = Some r.
Proof. apply strip_prefix_spec. reflexivity. Qed.

(** Whether a text begins with a payload character. *)
Definition hd_b64 (s : str) : bool :=
  match s with
  | c :: _ => is_b64char c
  | [] => false
  end.

Lemma take_b64_spec (s : str) :
  s = fst (take_b64 s) ++ snd (take_b64 s)
  /\ forallb is_b64char (fst (take_b64 s)) = true
  /\ hd_b64 (snd (take_b64 s)) = false.
Proof.
  induction s as [|c s IH]; simpl; [auto|].
  destruct (is_b64char c) eqn:E.
  - destruct (take_b64 s) as [run rest]. simpl in *.
    destruct IH as (H1 & H2 & H3). rewrite E, H2. repeat split; congruence.
  - simpl. rewrite E. auto.
Qed.

Lemma take_b64_app (p rest : str) :
  forallb is_b64char p = true -> hd_b64 rest = false ->
  take_b64 (p ++ rest) = (p, rest).
Proof.
  intros Hp Hr. induction p as [|c p IH]; simpl in *.
  - destruct rest as [|c rest]; [reflexivity|]. simpl in *. now rewrite Hr.
  - apply andb_true_iff in Hp. destruct Hp as [Hc Hp].
    rewrite Hc, (IH Hp). reflexivity.
Qed.

Lemma match_payload_spec (s payload : str) :
  match_payload s = Some payload ->
  payload <> [] /\ forallb is_b64char payload = true
  /\ exists rest, s = lit ";base64," ++ payload ++ rest /\ hd_b64 rest = false.
Proof.
  unfold match_payload.
  destruct (strip_prefix (lit ";base64,") s) as [s'|] eqn:E; [|discriminate].
  apply strip_prefix_spec in E.
  destruct (take_b64_spec s') as (H1 & H2 & H3).
  destruct (fst (take_b64 s')) as [|c run] eqn:F; [discriminate|].
  intros H. injection H as <-. repeat split; [discriminate|exact H2|].
  exists (snd (take_b64 s')). split; [congruence|exact H3].
Qed.

Lemma match_payload_app (payload rest : str) :
  payload <> [] -> forallb is_b64char payload = true -> hd_b64 rest = false ->
  match_payload (lit ";base64," ++ payload ++ rest) = Some payload.
Proof.
  intros Hne Hp Hr. unfold match_payload.
  rewrite strip_prefix_app, (take_b64_app _ _ Hp Hr). simpl.
  destruct payload; [contradiction|reflexivity].
Qed.

Lemma match_alt_spec (alts : list str) (s : str) (m : Match) :
  match_alt alts s = Some m ->
  In (group1 m) alts /\ group2 m <> []
  /\ forallb is_b64char (group2 m) = true
  /\ exists rest,
       s = group1 m ++ lit ";base64," ++ group2 m ++ rest /\ hd_b64 rest = false.
Proof.
  induction alts as [|alt alts IH]; simpl; [discriminate|].
  destruct (strip_prefix alt s) as [s'|] eqn:E.
  - destruct (match_payload s') as [payload|] eqn:F.
    + intros H. injection H as <-. simpl.
      apply strip_prefix_spec in E.
      destruct (match_payload_spec _ _ F) as (H1 & H2 & rest & H3 & H4).
      repeat split; auto. exists rest. split; [subst; reflexivity|exact H4].
    + intros H. destruct (IH H) as (? & ? & ? & ?). auto.
  - intros H. destruct (IH H) as (? & ? & ? & ?). auto.
Qed.

(** A match is a recognized subtype and a non-empty payload of alphabet
    characters that the text does not continue. *)
Lemma match_here_spec (s : str) (m : Match) :
  match_here s = Some m ->
  In (group1 m) subtypes /\ group2 m <> []
  /\ forallb is_b64char (group2 m) = true
  /\ exists rest, s = group0 m ++ rest /\ hd_b64 rest = false.
Proof.
  unfold match_here.
  destruct (strip_prefix (lit "data:image/") s) as [s'|] eqn:E; [|discriminate].
  apply strip_prefix_spec in E. intros H.
  destruct (match_alt_spec _ _ _ H) as (H1 & H2 & H3 & rest & H4 & H5).
  repeat split; auto. exists rest. split; [|exact H5].
  unfold group0. rewrite E, H4. now rewrite <- !app_assoc.
Qed.

(** Conversely, a recognized subtype followed by a payload is matched, with
    that subtype and the whole payload as groups. *)
Lemma match_here_complete (ty payload rest : str) :
  In ty subtypes -> payload <> [] -> forallb is_b64char payload = true ->
  hd_b64 rest = false ->
  match_here (lit "data:image/" ++ ty ++ lit ";base64," ++ payload ++ rest)
  = Some (mkMatch ty payload).
Proof.
  intros Hty Hne Hp Hr. unfold match_here. rewrite strip_prefix_app.
  pose proof (match_payload_app payload rest Hne Hp Hr) as HP.
  unfold subtypes in *. simpl in Hty.
  repeat (destruct Hty as [<-|Hty]; [simpl; simpl in HP; now rewrite HP|]).
  contradiction.
Qed.

(** ** The scan *)

Lemma finditer_none (c : ascii) (tl : str) :
  match_here (c :: tl) = None -> finditer (c :: tl) = TChar c :: finditer tl.
Proof.
  intros H. simp finditer. rewrite H. reflexivity.
Qed.

Lemma group0_cons (m : Match) :
  group0 m = "d" :: lit "ata:image/" ++ group1 m ++ lit ";base64," ++ group2 m.
Proof. reflexivity. Qed.

(** At a match the scan emits it and resumes right after its text. *)
Lemma finditer_some (s : str) (m : Match) :
  match_here s = Some m ->
  exists rest,
    s = group0 m ++ rest /\ hd_b64 rest = false
    /\ finditer s = TMatch m :: finditer rest.
Proof.
  intros H. destruct (match_here_spec _ _ H) as (_ & _ & _ & rest & Hs & Hr).
  exists rest. repeat split; auto.
  destruct s as [|c tl].
  - rewrite group0_cons in Hs. discriminate.
  - simp finditer. rewrite H. cbn [finditer_unfold_clause_2]. f_equal. f_equal.
    assert (Htl : tl = List.tl (group0 m) ++ rest)
      by (rewrite group0_cons in Hs |- *; simpl in *; congruence).
    rewrite Htl at 1.
    replace (length (group0 m) - 1) with (length (List.tl (group0 m)))
      by (rewrite group0_cons; simpl; lia).
    rewrite skipn_app, skipn_all, Nat.sub_diag. reflexivity.
Qed.

(** Induction along the scan: a position without a match is passed one
    character at a time, a match in one step. *)
Lemma scan_ind (P : str -> Prop) :
  P [] ->
  (forall c tl, match_here (c :: tl) = None -> P tl -> P (c :: tl)) ->
  (forall m rest,
      match_here (group0 m ++ rest) = Some m -> hd_b64 rest = false ->
      P rest -> P (group0 m ++ rest)) ->
  forall s, P s.
Proof.
  intros Hnil Hnone Hsome s.
  remember (length s) as n eqn:Hn. revert s Hn.
  induction n as [n IH] using lt_wf_ind. intros s Hn.
  destruct s as [|c tl]; [exact Hnil|].
  destruct (match_here (c :: tl)) as [m|] eqn:E.
  - destruct (finditer_some _ _ E) as (rest & Hs & Hr & _).
    rewrite Hs in E |- *. apply Hsome; auto.
    apply (IH (length rest)); [|reflexivity].
    subst n. rewrite Hs, length_app, group0_cons. simpl. lia.
  - apply Hnone; auto. apply (IH (length tl)); [|reflexivity].
    subst n. simpl. lia.
Qed.

Definition token_text (t : token) : str :=
  match t with
  | TChar c => [c]
  | TMatch m => group0 m
  end.

(** The tokens of a text, laid end to end, are the text. *)
Lemma finditer_text (s : str) : concat (map token_text (finditer s)) = s.
Proof.
  induction s as [|c tl Hm IH|m rest Hm Hr IH] using scan_ind.
  - reflexivity.
  - rewrite (finditer_none _ _ Hm). simpl. now rewrite IH.
  - destruct (finditer_some _ _ Hm) as (rest' & Hs & _ & Hf).
    apply app_inv_head in Hs. subst rest'.
    rewrite Hf. simpl. now rewrite IH.
Qed.

(** The matches of a text in scan order ([re.findall] as match objects). *)
Definition matches_of (toks : list token) : list Match :=
  flat_map (fun t => match t with TMatch m => [m] | TChar _ => [] end) toks.

(** Every token of a scan that is a match satisfies the pattern. *)
Lemma finditer_matches (s : str) (m : Match) :
  In (TMatch m) (finditer s) ->
  In (group1 m) subtypes /\ group2 m <> []
  /\ forallb is_b64char (group2 m) = true.
Proof.
  induction s as [|c tl Hm IH|m' rest Hm Hr IH] using scan_ind.
  - simp finditer. intros [].
  - rewrite (finditer_none _ _ Hm). intros [H|H]; [discriminate|auto].
  - destruct (finditer_some _ _ Hm) as (rest' & Hs & _ & Hf).
    apply app_inv_head in Hs. subst rest'. rewrite Hf.
    intros [H|H]; [|auto]. injection H as <-.
    destruct (match_here_spec _ _ Hm) as (? & ? & ? & _). auto.
Qed.

(** ** File names *)

Lemma lit_inj (a b : string) : lit a = lit b -> a = b.
Proof.
  intros H. rewrite <- (string_of_list_ascii_of_string a),
    <- (string_of_list_ascii_of_string b). unfold lit in H. now rewrite H.
Qed.

Lemma of_uint_iter_D0 (k : nat) (d : Decimal.uint) :
  Nat.of_uint (Nat.iter k Decimal.D0 d) = Nat.of_uint d.
Proof.
  induction k as [|k IH]; [reflexivity|]. simpl. rewrite <- IH. reflexivity.
Qed.

Lemma format_04d_inj (n1 n2 : nat) : format_04d n1 = format_04d n2 -> n1 = n2.
Proof.
  unfold format_04d. intros H. apply lit_inj in H.
  apply (f_equal NilEmpty.uint_of_string) in H.
  rewrite !NilEmpty.usu in H. injection H as H.
  apply (f_equal Nat.of_uint) in H.
  now rewrite !of_uint_iter_D0, !Unsigned.of_to in H.
Qed.

Lemma string_of_uint_no_dot (d : Decimal.uint) :
  ~ In "."%char (lit (NilEmpty.string_of_uint d)).
Proof.
  induction d; simpl; [tauto|..]; intros [H|H]; try discriminate; auto.
Qed.

Lemma format_04d_no_dot (n : nat) : ~ In "."%char (format_04d n).
Proof. apply string_of_uint_no_dot. Qed.

Lemma app_sep_inj {A : Type} (x : A) (l1 l2 r1 r2 : list A) :
  ~ In x l1 -> ~ In x l2 -> l1 ++ x :: r1 = l2 ++ x :: r2 -> l1 = l2.
Proof.
  revert l2. induction l1 as [|a l1 IH]; intros [|b l2] H1 H2 H; simpl in *.
  - reflexivity.
  - injection H as H _. subst b. tauto.
  - injection H as H _. subst a. tauto.
  - injection H as -> H. f_equal. apply IH; tauto.
Qed.

(** The extension of a match: [svg] for [svg+xml], the subtype otherwise. *)
Definition extension (m : Match) : str :=
  if str_eqb (group1 m) (lit "svg+xml") then lit "svg" else group1 m.

Definition filename (n : nat) (m : Match) : str :=
  lit "image_" ++ format_04d n ++ lit "." ++ extension m.

Definition filepath (output_dir : str) (n : nat) (m : Match) : str :=
  path_join output_dir (filename n m).

Definition reference (output_dir : str) (n : nat) (m : Match) : str :=
  lit "./" ++ output_dir ++ lit "/" ++ filename n m.

Lemma filename_inj (n1 n2 : nat) (m1 m2 : Match) :
  filename n1 m1 = filename n2 m2 -> n1 = n2.
Proof.
  unfold filename. intros H. apply app_inv_head in H.
  apply format_04d_inj. eapply app_sep_inj; [| |exact H];
    apply format_04d_no_dot.
Qed.

Lemma path_join_filename (d : str) (n : nat) (m : Match) :
  exists pre, path_join d (filename n m) = pre ++ filename n m
              /\ forall n' m', path_join d (filename n' m') = pre ++ filename n' m'.
Proof.
  unfold path_join. destruct d as [|c d].
  - exists []. split; reflexivity.
  - destruct (ends_with "/" (c :: d)).
    + exists (c :: d). split; reflexivity.
    + exists ((c :: d) ++ lit "/"). split; intros; simpl;
        now rewrite <- app_assoc.
Qed.

(** Two output paths of one run are equal only for equal sequence
    numbers. *)
Lemma filepath_inj (d : str) (n1 n2 : nat) (m1 m2 : Match) :
  filepath d n1 m1 = filepath d n2 m2 -> n1 = n2.
Proof.
  unfold filepath. destruct (path_join_filename d n1 m1) as (pre & H1 & H2).
  rewrite H1, (H2 n2 m2). intros H. apply app_inv_head in H.
  eapply filename_inj; eauto.
Qed.

(** ** The callback and the run *)

Section Run.

Variable b64decode : str -> option bytes.
Variable writable : str -> bytes -> bool.
Variable leftover : str -> bytes -> option bytes.
Variable output_dir : str.

(** What match [m] yields under sequence number [n]: its decoded bytes
    when both the decoding and the write go through. *)
Definition extracted (n : nat) (m : Match) : option bytes :=
  match b64decode (group2 m) with
  | Some d => if writable (filepath output_dir n m) d then Some d else None
  | None => None
  end.

Lemma replace_base64_extracted (m : Match) (k : nat) (w : World) (d : bytes) :
  extracted (k + 1) m = Some d ->
  replace_base64 b64decode writable leftover output_dir m (k, w)
  = (reference output_dir (k + 1) m,
     (k + 1,
      print (PExtracted (filename (k + 1) m) (length d))
            (write_file (filepath output_dir (k + 1) m) d w))).
Proof.
  unfold extracted, replace_base64, filepath, filename, extension, reference.
  cbn [fst snd].
  destruct (b64decode (group2 m)) as [d'|]; [|discriminate].
  destruct (writable _ d'); [|discriminate].
  intros H. injection H as ->. reflexivity.
Qed.

(** The entry that the callback adds to the files for match [m] under
    number [n]: the decoded bytes when the write goes through, what a failed
    write leaves otherwise, nothing when the payload does not decode or the
    file cannot even be opened. *)
Definition attempted (n : nat) (m : Match) : list (str * bytes) :=
  match b64decode (group2 m) with
  | Some d =>
      if writable (filepath output_dir n m) d
      then [(filepath output_dir n m, d)]
      else match leftover (filepath output_dir n m) d with
           | Some l => [(filepath output_dir n m, l)]
           | None => []
           end
  | None => []
  end.

Lemma attempted_extracted (n : nat) (m : Match) (d : bytes) :
  extracted n m = Some d -> attempted n m = [(filepath output_dir n m, d)].
Proof.
  unfold extracted, attempted.
  destruct (b64decode (group2 m)) as [d'|]; [|discriminate].
  destruct (writable _ d'); [|discriminate]. now intros [= ->].
Qed.

Lemma attempted_undecoded (n : nat) (m : Match) :
  b64decode (group2 m) = None -> attempted n m = [].
Proof. unfold attempted. now intros ->. Qed.

Lemma attempted_cases (n : nat) (m : Match) :
  attempted n m = []
  \/ exists d, attempted n m = [(filepath output_dir n m, d)].
Proof.
  unfold attempted. destruct (b64decode (group2 m)) as [d|]; [|now left].
  destruct (writable _ d); [right; now exists d|].
  destruct (leftover _ d) as [l|]; [right; now exists l|now left].
Qed.

Lemma attempted_rev (n : nat) (m : Match) :
  rev (attempted n m) = attempted n m.
Proof.
  destruct (attempted_cases n m) as [->|(d & ->)]; reflexivity.
Qed.

Lemma replace_base64_failed (m : Match) (k : nat) (w : World) :
  extracted (k + 1) m = None ->
  replace_base64 b64decode writable leftover output_dir m (k, w)
  = (group0 m,
     (k + 1,
      print (PError (k + 1))
            (mkWorld (dirs w) (attempted (k + 1) m ++ files w) (stdout w)))).
Proof.
  unfold extracted, attempted, replace_base64, filepath, filename, extension.
  cbn [fst snd].
  destruct (b64decode (group2 m)) as [d'|]; [|now destruct w].
  destruct (writable _ d'); [discriminate|]. intros _.
  destruct (leftover _ d'); now destruct w.
Qed.

Lemma replace_base64_undecoded (m : Match) (k : nat) (w : World) :
  b64decode (group2 m) = None ->
  replace_base64 b64decode writable leftover output_dir m (k, w)
  = (group0 m, (k + 1, print (PError (k + 1)) w)).
Proof.
  intros H. unfold replace_base64. cbn [fst snd]. now rewrite H.
Qed.

(** The text, the writes and the lines that a token list yields when the
    counter stands at [k] before it. *)
Fixpoint render (k : nat) (toks : list token) : str :=
  match toks with
  | [] => []
  | TChar c :: toks' => c :: render k toks'
  | TMatch m :: toks' =>
      match extracted (k + 1) m with
      | Some _ => reference output_dir (k + 1) m
      | None => group0 m
      end ++ render (k + 1) toks'
  end.

Fixpoint writes (k : nat) (toks : list token) : list (str * bytes) :=
  match toks with
  | [] => []
  | TChar c :: toks' => writes k toks'
  | TMatch m :: toks' => attempted (k + 1) m ++ writes (k + 1) toks'
  end.

Fixpoint prints (k : nat) (toks : list token) : list event :=
  match toks with
  | [] => []
  | TChar c :: toks' => prints k toks'
  | TMatch m :: toks' =>
      match extracted (k + 1) m with
      | Some d => PExtracted (filename (k + 1) m) (length d)
      | None => PError (k + 1)
      end :: prints (k + 1) toks'
  end.

Lemma sub_tokens_run (toks : list token) (k : nat) (w : World) :
  sub_tokens (replace_base64 b64decode writable leftover output_dir) toks (k, w)
  = (render k toks,
     (k + length (matches_of toks),
      mkWorld (dirs w) (rev (writes k toks) ++ files w)
              (stdout w ++ prints k toks))).
Proof.
  revert k w. induction toks as [|[c|m] toks IH]; intros k w.
  - simpl. rewrite Nat.add_0_r, app_nil_r. now destruct w.
  - simpl. now rewrite IH.
  - assert (Hc : k + length (matches_of (TMatch m :: toks))
                = k + 1 + length (matches_of toks)) by (simpl; lia).
    rewrite Hc. cbn [sub_tokens render writes prints].
    destruct (extracted (k + 1) m) as [d|] eqn:E.
    + rewrite (replace_base64_extracted _ _ _ _ E), IH.
      rewrite (attempted_extracted _ _ _ E).
      cbn [print write_file dirs files stdout].
      rewrite rev_app_distr, <- !app_assoc. reflexivity.
    + rewrite (replace_base64_failed _ _ _ E), IH.
      cbn [print dirs files stdout].
      rewrite rev_app_distr, attempted_rev, <- !app_assoc. reflexivity.
Qed.

(** The whole run in closed form. *)
Lemma extract_base64_images_run (html : str) (w : World) :
  extract_base64_images b64decode writable leftover html output_dir w
  = (render 0 (finditer html),
     mkWorld (dirs (mkdir output_dir w))
             (rev (writes 0 (finditer html)) ++ files w)
             (stdout w ++ PStart :: prints 0 (finditer html)
                ++ [PTotal (length (matches_of (finditer html)))])).
Proof.
  unfold extract_base64_images, re_sub. rewrite sub_tokens_run.
  assert (Hf : files (mkdir output_dir w) = files w)
    by (unfold mkdir; now destruct (is_dir _ _)).
  assert (Hs : stdout (mkdir output_dir w) = stdout w)
    by (unfold mkdir; now destruct (is_dir _ _)).
  unfold print. cbn [dirs files stdout fst snd]. rewrite Hf, Hs.
  rewrite <- !app_assoc. reflexivity.
Qed.

End Run.

(** ** What a run leaves untouched *)

(** A text cut into the pieces a run distinguishes: a character outside
    every match, a match left in place, a match replaced by [r]. *)
Inductive span :=
| Outside (c : ascii)
| Failed (m : Match)
| Replaced (m : Match) (r : str).

Definition span_in (s : span) : str :=
  match s with
  | Outside c => [c]
  | Failed m => group0 m
  | Replaced m _ => group0 m
  end.

Definition span_out (s : span) : str :=
  match s with
  | Outside c => [c]
  | Failed m => group0 m
  | Replaced _ r => r
  end.

Definition span_token (s : span) : token :=
  match s with
  | Outside c => TChar c
  | Failed m => TMatch m
  | Replaced m _ => TMatch m
  end.

(** The text of a match: a recognized subtype and a non-empty payload. *)
Definition is_match (m : Match) : Prop :=
  In (group1 m) subtypes /\ group2 m <> []
  /\ forallb is_b64char (group2 m) = true.

Section Frame.

Variable b64decode : str -> option bytes.
Variable writable : str -> bytes -> bool.
Variable leftover : str -> bytes -> option bytes.
Variable output_dir : str.

(** A piece is well formed when a replaced match was decoded and written
    under some sequence number and is replaced by the reference to that
    file, and a match left in place was not. *)
Definition span_ok (s : span) : Prop :=
  match s with
  | Outside _ => True
  | Failed m =>
      is_match m
      /\ exists n, extracted b64decode writable output_dir n m = None
  | Replaced m r =>
      is_match m
      /\ exists n d,
           b64decode (group2 m) = Some d
           /\ writable (filepath output_dir n m) d = true
           /\ r = reference output_dir n m
  end.

Fixpoint spans_of (k : nat) (toks : list token) : list span :=
  match toks with
  | [] => []
  | TChar c :: toks' => Outside c :: spans_of k toks'
  | TMatch m :: toks' =>
      match extracted b64decode writable output_dir (k + 1) m with
      | Some _ => Replaced m (reference output_dir (k + 1) m)
      | None => Failed m
      end :: spans_of (k + 1) toks'
  end.

Lemma spans_of_token (k : nat) (toks : list token) :
  map span_token (spans_of k toks) = toks.
Proof.
  revert k. induction toks as [|[c|m] toks IH]; intros k; simpl;
    [reflexivity|now rewrite IH|].
  rewrite IH. now destruct (extracted _ _ _ _ m).
Qed.

Lemma spans_of_in (k : nat) (toks : list token) :
  concat (map span_in (spans_of k toks)) = concat (map token_text toks).
Proof.
  revert k. induction toks as [|[c|m] toks IH]; intros k; simpl;
    [reflexivity|now rewrite IH|].
  rewrite IH. now destruct (extracted _ _ _ _ m).
Qed.

Lemma spans_of_out (k : nat) (toks : list token) :
  concat (map span_out (spans_of k toks))
  = render b64decode writable output_dir k toks.
Proof.
  revert k. induction toks as [|[c|m] toks IH]; intros k; simpl;
    [reflexivity|now rewrite IH|].
  rewrite IH. now destruct (extracted _ _ _ _ m).
Qed.

Lemma spans_of_ok (k : nat) (toks : list token) :
  (forall m, In (TMatch m) toks -> is_match m) ->
  Forall span_ok (spans_of k toks).
Proof.
  revert k. induction toks as [|[c|m] toks IH]; intros k H; simpl.
  - constructor.
  - constructor; [exact I|]. apply IH. intros m Hm. apply H. now right.
  - constructor; [|apply IH; intros m' Hm; apply H; now right].
    assert (Hm : is_match m) by (apply H; now left).
    destruct (extracted _ _ _ _ m) as [d|] eqn:E; simpl.
    + split; [exact Hm|]. exists (k + 1). unfold extracted in E.
      destruct (b64decode (group2 m)) as [d'|]; [|discriminate].
      destruct (writable _ d') eqn:W; [|discriminate].
      exists d'. auto.
    + split; [exact Hm|]. now exists (k + 1).
Qed.

(** C1.  The returned text is the input with some match spans replaced:
    input and output are cut into the same pieces, in the same order; a
    piece differs only where it is a match that was decoded and written, and
    then the output holds the reference to its file.  Characters outside
    matches and matches that were not extracted are the same in both. *)
Theorem extract_frame (html : str) (w : World) :
  exists spans : list span,
    html = concat (map span_in spans)
    /\ fst (extract_base64_images b64decode writable leftover html output_dir w)
       = concat (map span_out spans)
    /\ map span_token spans = finditer html
    /\ Forall span_ok spans.
Proof.
  exists (spans_of 0 (finditer html)).
  rewrite extract_base64_images_run, spans_of_in, spans_of_out,
    spans_of_token, finditer_text.
  repeat split; auto.
  apply spans_of_ok. intros m Hm. exact (finditer_matches _ _ Hm).
Qed.

End Frame.

(** ** Files of a run *)

Lemma read_file_app_notin (p : str) (ws fl : list (str * bytes)) :
  ~ In p (map fst ws) -> read_file p (ws ++ fl) = read_file p fl.
Proof.
  induction ws as [|[q d] ws IH]; intros H; simpl in *; [reflexivity|].
  destruct (str_eqb q p) eqn:E.
  - apply str_eqb_eq in E. tauto.
  - apply IH. tauto.
Qed.

Lemma read_file_head (p : str) (d : bytes) (fl : list (str * bytes)) :
  read_file p ((p, d) :: fl) = Some d.
Proof. simpl. now rewrite str_eqb_refl. Qed.

(** [no_match_within l post]: in the text [l ++ post], the pattern matches
    at no position inside [l]. *)
Fixpoint no_match_within (l post : str) : Prop :=
  match l with
  | [] => True
  | c :: l' => match_here (c :: l' ++ post) = None /\ no_match_within l' post
  end.

Lemma finditer_skip (l post : str) :
  no_match_within l post -> finditer (l ++ post) = map TChar l ++ finditer post.
Proof.
  induction l as [|c l IH]; simpl; [reflexivity|].
  intros [H1 H2]. rewrite (finditer_none _ _ H1), (IH H2). reflexivity.
Qed.

Lemma no_match_within_app (a b post : str) :
  no_match_within (a ++ b) post
  <-> no_match_within a (b ++ post) /\ no_match_within b post.
Proof.
  induction a as [|c a IH]; simpl; [tauto|].
  rewrite IH, <- app_assoc. tauto.
Qed.

Lemma sub_tokens_app {S : Type} (repl : Match -> S -> str * S)
    (t1 t2 : list token) (st : S) :
  sub_tokens repl (t1 ++ t2) st
  = (fst (sub_tokens repl t1 st)
       ++ fst (sub_tokens repl t2 (snd (sub_tokens repl t1 st))),
     snd (sub_tokens repl t2 (snd (sub_tokens repl t1 st)))).
Proof.
  revert st. induction t1 as [|[c|m] t1 IH]; intros st; simpl.
  - now destruct (sub_tokens repl t2 st).
  - rewrite IH. now destruct (sub_tokens repl t1 st).
  - destruct (repl m st) as [r st1]. rewrite IH.
    destruct (sub_tokens repl t1 st1). simpl. now rewrite app_assoc.
Qed.

Lemma sub_tokens_chars {S : Type} (repl : Match -> S -> str * S)
    (l : str) (st : S) :
  sub_tokens repl (map TChar l) st = (l, st).
Proof. induction l as [|c l IH]; simpl; [reflexivity|now rewrite IH]. Qed.

(** A stretch of text in which the pattern matches nowhere is copied to the
    output, and the scan goes on after it in the state it had before it. *)
Lemma re_sub_skip {S : Type} (repl : Match -> S -> str * S)
    (l post : str) (st : S) :
  no_match_within l post ->
  re_sub repl (l ++ post) st
  = (l ++ fst (re_sub repl post st), snd (re_sub repl post st)).
Proof.
  intros H. unfold re_sub. rewrite (finditer_skip _ _ H), sub_tokens_app.
  now rewrite sub_tokens_chars.
Qed.

(** At a match, the callback runs on it and the scan goes on after it. *)
Lemma re_sub_match {S : Type} (repl : Match -> S -> str * S)
    (text : str) (m : Match) (st : S) :
  match_here text = Some m ->
  exists rest,
    text = group0 m ++ rest
    /\ re_sub repl text st
       = (fst (repl m st) ++ fst (re_sub repl rest (snd (repl m st))),
          snd (re_sub repl rest (snd (repl m st)))).
Proof.
  intros H. destruct (finditer_some _ _ H) as (rest & Hs & _ & Hf).
  exists rest. split; [exact Hs|]. unfold re_sub. rewrite Hf. simpl.
  destruct (repl m st) as [r st1]. simpl.
  now destruct (sub_tokens repl (finditer rest) st1).
Qed.

Section Guarantees.

Variable b64decode : str -> option bytes.
Variable writable : str -> bytes -> bool.
Variable leftover : str -> bytes -> option bytes.
Variable output_dir : str.

(** The write and the line of match [m] under sequence number [n] (the
    write is the decoded image, or what a failed write left of it). *)
Definition write_of (nm : nat * Match) : list (str * bytes) :=
  attempted b64decode writable leftover output_dir (fst nm) (snd nm).

Definition print_of (nm : nat * Match) : event :=
  match extracted b64decode writable output_dir (fst nm) (snd nm) with
  | Some d => PExtracted (filename (fst nm) (snd nm)) (length d)
  | None => PError (fst nm)
  end.

(** Matches paired with the numbers [k+1], [k+2], ... in scan order. *)
Definition numbered (k : nat) (ms : list Match) : list (nat * Match) :=
  combine (seq (k + 1) (length ms)) ms.

Lemma writes_numbered (k : nat) (toks : list token) :
  writes b64decode writable leftover output_dir k toks
  = flat_map write_of (numbered k (matches_of toks)).
Proof.
  revert k. induction toks as [|[c|m] toks IH]; intros k; simpl;
    [reflexivity|apply IH|].
  rewrite IH. unfold numbered, write_of. simpl.
  now rewrite (Nat.add_1_r (k + 1)).
Qed.

Lemma prints_numbered (k : nat) (toks : list token) :
  prints b64decode writable output_dir k toks
  = map print_of (numbered k (matches_of toks)).
Proof.
  revert k. induction toks as [|[c|m] toks IH]; intros k; simpl;
    [reflexivity|apply IH|].
  rewrite IH. unfold numbered, print_of. simpl.
  now rewrite (Nat.add_1_r (k + 1)).
Qed.

Lemma writes_index (k : nat) (toks : list token) (p : str) :
  In p (map fst (writes b64decode writable leftover output_dir k toks)) ->
  exists n m, p = filepath output_dir n m /\ k < n.
Proof.
  revert k. induction toks as [|[c|m] toks IH]; intros k; simpl.
  - intros [].
  - apply IH.
  - rewrite map_app, in_app_iff. intros [H|H].
    + destruct (attempted_cases b64decode writable leftover output_dir (k + 1) m)
        as [E|(d & E)]; rewrite E in H; simpl in H; [contradiction|].
      destruct H as [<-|[]]. exists (k + 1), m. split; [reflexivity|lia].
    + destruct (IH _ H) as (n & m' & -> & Hn). exists n, m'.
      split; [reflexivity|lia].
Qed.

Lemma writes_NoDup (k : nat) (toks : list token) :
  NoDup (map fst (writes b64decode writable leftover output_dir k toks)).
Proof.
  revert k. induction toks as [|[c|m] toks IH]; intros k; simpl.
  - constructor.
  - apply IH.
  - destruct (attempted_cases b64decode writable leftover output_dir (k + 1) m)
      as [E|(d & E)]; rewrite E; simpl; [apply IH|].
    constructor; [|apply IH]. intros H.
    destruct (writes_index _ _ _ H) as (n & m' & E' & Hn).
    apply filepath_inj in E'. lia.
Qed.

(** C7.  The files a run writes are the new entries at the head of
    [files], and their paths are pairwise distinct, however many matches
    the document has. *)
Theorem output_paths_distinct (html : str) (w : World) :
  exists ws : list (str * bytes),
    files (snd (extract_base64_images b64decode writable leftover html output_dir w))
    = ws ++ files w
    /\ NoDup (map fst ws).
Proof.
  rewrite extract_base64_images_run. cbn [snd files].
  eexists. split; [reflexivity|].
  rewrite map_rev. apply NoDup_rev, writes_NoDup.
Qed.

(** C5.  The matches of a document, taken in scan order, are processed
    under the numbers 1, 2, 3, ...: the files written and the lines printed
    are those of the i-th match under number i.  For three matches that all
    decode and are written, the files are [image_0001], [image_0002],
    [image_0003], each with the extension of its own match, written in that
    order. *)
Theorem sequence_numbers_in_scan_order (html : str) (w : World) :
  let ms := matches_of (finditer html) in
  let w' := snd (extract_base64_images b64decode writable leftover html output_dir w) in
  files w' = rev (flat_map write_of (combine (seq 1 (length ms)) ms)) ++ files w
  /\ stdout w'
     = stdout w ++ PStart :: map print_of (combine (seq 1 (length ms)) ms)
         ++ [PTotal (length ms)]
  /\ forall m1 m2 m3 d1 d2 d3,
       ms = [m1; m2; m3] ->
       extracted b64decode writable output_dir 1 m1 = Some d1 ->
       extracted b64decode writable output_dir 2 m2 = Some d2 ->
       extracted b64decode writable output_dir 3 m3 = Some d3 ->
       files w'
       = [(path_join output_dir (lit "image_0003." ++ extension m3), d3);
          (path_join output_dir (lit "image_0002." ++ extension m2), d2);
          (path_join output_dir (lit "image_0001." ++ extension m1), d1)]
         ++ files w.
Proof.
  intros ms w'. subst w'. rewrite extract_base64_images_run.
  cbn [snd files stdout]. rewrite writes_numbered, prints_numbered.
  fold ms. unfold numbered. cbn [Nat.add].
  repeat split.
  intros m1 m2 m3 d1 d2 d3 -> E1 E2 E3.
  unfold write_of. cbn [length seq combine flat_map fst snd].
  rewrite (attempted_extracted _ _ _ _ _ _ _ E1),
    (attempted_extracted _ _ _ _ _ _ _ E2),
    (attempted_extracted _ _ _ _ _ _ _ E3). reflexivity.
Qed.

End Guarantees.

(** ** Documents without matches *)

(** No substring of [html] has the form
    [data:image/<recognized subtype>;base64,<payload>]. *)
Definition no_data_uri (html : str) : Prop :=
  forall pre ty payload post,
    In ty subtypes -> payload <> [] -> forallb is_b64char payload = true ->
    html <> pre ++ lit "data:image/" ++ ty ++ lit ";base64," ++ payload ++ post.

Lemma no_data_uri_no_match (html : str) :
  no_data_uri html -> no_match_within html [].
Proof.
  induction html as [|c tl IH]; intros H; simpl; [exact I|]. split.
  - rewrite app_nil_r. destruct (match_here (c :: tl)) as [m|] eqn:E; [|reflexivity].
    destruct (match_here_spec _ _ E) as (H1 & H2 & H3 & rest & Hs & _).
    exfalso. apply (H [] (group1 m) (group2 m) rest H1 H2 H3).
    rewrite Hs. unfold group0. now rewrite <- !app_assoc.
  - apply IH. intros pre ty payload post H1 H2 H3 E.
    apply (H (c :: pre) ty payload post H1 H2 H3). simpl. now rewrite E.
Qed.

Section PassThrough.

Variable b64decode : str -> option bytes.
Variable writable : str -> bytes -> bool.
Variable leftover : str -> bytes -> option bytes.
Variable output_dir : str.

(** C6.  A document with no substring of the form
    [data:image/<recognized subtype>;base64,<payload>] is returned unchanged;
    the run writes no file and reports a total of zero. *)
Theorem no_data_uri_unchanged (html : str) (w : World) :
  no_data_uri html ->
  extract_base64_images b64decode writable leftover html output_dir w
  = (html,
     mkWorld (dirs (mkdir output_dir w)) (files w)
             (stdout w ++ [PStart; PTotal 0])).
Proof.
  intros H. apply no_data_uri_no_match in H.
  rewrite extract_base64_images_run.
  pose proof (finditer_skip html [] H) as F. rewrite app_nil_r in F.
  simp finditer in F. rewrite app_nil_r in F. rewrite F.
  assert (R : forall k l, render b64decode writable output_dir k (map TChar l) = l)
    by (intros k l; induction l; simpl; congruence).
  assert (W : forall k l, writes b64decode writable leftover output_dir k (map TChar l) = [])
    by (intros k l; induction l; simpl; congruence).
  assert (P : forall k l, prints b64decode writable output_dir k (map TChar l) = [])
    by (intros k l; induction l; simpl; congruence).
  assert (M : forall l, matches_of (map TChar l) = [])
    by (intros l; induction l; simpl; congruence).
  rewrite R, W, P, M. reflexivity.
Qed.

(** C3, as amended.  When the scan stands at a match whose payload does not
    decode, the callback returns the matched text itself, takes the next
    sequence number, prints an error line and touches no file; the scan then
    continues on the text after the match with the counter advanced, and
    nothing from there on writes a file under the number this match took. *)
Theorem failed_match_left_verbatim (text : str) (m : Match) (k : nat) (w : World) :
  match_here text = Some m ->
  b64decode (group2 m) = None ->
  let repl := replace_base64 b64decode writable leftover output_dir in
  let st1 := (k + 1, print (PError (k + 1)) w) in
  repl m (k, w) = (group0 m, st1)
  /\ files (snd st1) = files w
  /\ exists rest,
       text = group0 m ++ rest
       /\ re_sub repl text (k, w)
          = (group0 m ++ fst (re_sub repl rest st1), snd (re_sub repl rest st1))
       /\ forall m',
            read_file (filepath output_dir (k + 1) m')
                      (files (snd (snd (re_sub repl text (k, w)))))
            = read_file (filepath output_dir (k + 1) m') (files w).
Proof.
  intros Hm Hd repl st1.
  assert (R : repl m (k, w) = (group0 m, st1))
    by (apply replace_base64_undecoded, Hd).
  split; [exact R|]. split; [reflexivity|].
  destruct (re_sub_match repl text m (k, w) Hm) as (rest & Hs & Hr).
  exists rest. rewrite Hr, R. cbn [fst snd]. repeat split; auto.
  intros m'. unfold re_sub, repl, st1. rewrite sub_tokens_run.
  cbn [snd files print]. apply read_file_app_notin.
  rewrite map_rev, <- in_rev. intros H.
  destruct (writes_index _ _ _ _ _ _ _ H) as (n & m'' & E' & Hn).
  apply filepath_inj in E'. lia.
Qed.

End PassThrough.

(** ** Texts the pattern does not match *)

Lemma take_b64_nil (s : str) : hd_b64 s = false -> take_b64 s = ([], s).
Proof. destruct s as [|c s]; simpl; [reflexivity|]. now intros ->. Qed.

Lemma match_payload_empty (post : str) :
  hd_b64 post = false -> match_payload (lit ";base64," ++ post) = None.
Proof.
  intros H. unfold match_payload. now rewrite strip_prefix_app, take_b64_nil.
Qed.

Lemma match_here_head (s : str) (m : Match) :
  match_here s = Some m -> exists r, s = lit "data:" ++ r.
Proof.
  intros H. destruct (match_here_spec _ _ H) as (_ & _ & _ & rest & -> & _).
  eexists. unfold group0. simpl. reflexivity.
Qed.



(** A match begins with [d]. *)
Lemma no_d_no_match (l post : str) :
  Forall (fun c => c <> "d") l -> no_match_within l post.
Proof.
  induction l as [|c l IH]; intros H; simpl; [exact I|].
  split; [|apply IH; now apply Forall_inv_tail in H].
  destruct (match_here (c :: l ++ post)) as [m|] eqn:E; [|reflexivity].
  destruct (match_here_head _ _ E) as (r & Hr). simpl in Hr.
  injection Hr as -> _. apply Forall_inv in H. congruence.
Qed.

(** Inside a stretch without [:] the pattern matches nowhere, unless the
    text after the stretch completes a [data:] begun in it.  Whether a text
    begins with what would complete [data:] after a
    stretch ending in [d], [da], [dat] or [data]. *)
Definition completes_data (post : str) : bool :=
  match strip_prefix (lit ":") post, strip_prefix (lit "a:") post,
        strip_prefix (lit "ta:") post, strip_prefix (lit "ata:") post with
  | None, None, None, None => false
  | _, _, _, _ => true
  end.

Lemma no_colon_no_match_gen (l post : str) :
  Forall (fun c => c <> ":") l -> completes_data post = false ->
  no_match_within l post.
Proof.
  intros Hl Hc. induction l as [|c l IH]; simpl; [exact I|].
  pose proof (Forall_inv_tail Hl) as Hl1. split; [|auto].
  destruct (match_here (c :: l ++ post)) as [m|] eqn:E; [|reflexivity].
  exfalso. destruct (match_here_head _ _ E) as (r & Hr). simpl in Hr.
  unfold completes_data in Hc.
  destruct l as [|c2 [|c3 [|c4 [|c5 l]]]]; simpl in Hr.
  - injection Hr as _ Hp. subst post. simpl in Hc. discriminate.
  - injection Hr as _ _ Hp. subst post. simpl in Hc. discriminate.
  - injection Hr as _ _ _ Hp. subst post. simpl in Hc. discriminate.
  - injection Hr as _ _ _ _ Hp. subst post. simpl in Hc. discriminate.
  - injection Hr as _ _ _ _ H5 _.
    do 3 apply Forall_inv_tail in Hl1. apply Forall_inv in Hl1.
    now apply Hl1.
Qed.

Section Unmatched.

Variable b64decode : str -> option bytes.
Variable writable : str -> bytes -> bool.
Variable leftover : str -> bytes -> option bytes.
Variable output_dir : str.

(** A run over [l ++ post], where the pattern matches nowhere inside [l],
    is the run over [post] with [l] copied in front of its output. *)
Lemma extract_skip (l post : str) (w : World) :
  no_match_within l post ->
  extract_base64_images b64decode writable leftover (l ++ post) output_dir w
  = (l ++ fst (extract_base64_images b64decode writable leftover post output_dir w),
     snd (extract_base64_images b64decode writable leftover post output_dir w)).
Proof.
  intros H. unfold extract_base64_images. rewrite (re_sub_skip _ _ _ _ H).
  destruct (re_sub _ post _) as [out [n w']]. reflexivity.
Qed.

(** C10.  [data:image/<recognized subtype>;base64,] followed by the end of
    the text or by a character outside the alphabet is not matched.  The
    scan copies it and goes on in the state it had (same counter, same
    files); the run over the whole text is the run over what follows, with
    the prefix in front. *)
Theorem empty_payload_not_matched (ty post : str) :
  In ty subtypes -> hd_b64 post = false ->
  let uri := lit "data:image/" ++ ty ++ lit ";base64," in
  let repl := replace_base64 b64decode writable leftover output_dir in
  match_here (uri ++ post) = None
  /\ (forall k w,
        re_sub repl (uri ++ post) (k, w)
        = (uri ++ fst (re_sub repl post (k, w)), snd (re_sub repl post (k, w))))
  /\ (forall w,
        extract_base64_images b64decode writable leftover (uri ++ post) output_dir w
        = (uri ++ fst (extract_base64_images b64decode writable leftover post output_dir w),
           snd (extract_base64_images b64decode writable leftover post output_dir w))).
Proof.
  intros Hty Hp uri repl.
  assert (N : no_match_within uri post).
  { pose proof (match_payload_empty post Hp) as HP.
    unfold uri, subtypes in *. simpl in Hty.
    repeat (destruct Hty as [<-|Hty];
            [simpl; repeat split; try reflexivity;
             unfold match_here; simpl; simpl in HP; now rewrite HP|]).
    contradiction. }
  split; [|split].
  - unfold uri in *. destruct ty; simpl in N; apply N.
  - intros k w. now apply re_sub_skip.
  - intros w. now apply extract_skip.
Qed.


End Unmatched.

(** ** Decoding a match *)

Section RoundTrip.

Variable b64decode : str -> option bytes.
Variable writable : str -> bytes -> bool.
Variable leftover : str -> bytes -> option bytes.
Variable output_dir : str.

(** The first match of a document, of any recognized subtype, when its
    payload decodes and the write goes through: the file numbered 1 holds
    the decoded bytes at the end of the run, and the reference to it stands
    where the match was. *)
Lemma first_match_extracted (ty B pre post : str) (X : bytes) (w : World) :
  In ty subtypes -> B <> [] -> forallb is_b64char B = true ->
  b64decode B = Some X ->
  hd_b64 post = false ->
  no_match_within pre (group0 (mkMatch ty B) ++ post) ->
  writable (filepath output_dir 1 (mkMatch ty B)) X = true ->
  let m := mkMatch ty B in
  let r := extract_base64_images b64decode writable leftover
             (pre ++ group0 m ++ post) output_dir w in
  let w1 := print (PExtracted (filename 1 m) (length X))
              (write_file (filepath output_dir 1 m) X
                 (print PStart (mkdir output_dir w))) in
  read_file (filepath output_dir 1 m) (files (snd r)) = Some X
  /\ fst r
     = pre ++ reference output_dir 1 m
         ++ fst (re_sub (replace_base64 b64decode writable leftover output_dir) post (1, w1)).
Proof.
  intros Hty Hne Hb Hd Hp Hpre Hw m r w1.
  subst m r w1. set (m := mkMatch ty B) in *.
  set (w1 := print (PExtracted (filename 1 m) (length X))
               (write_file (filepath output_dir 1 m) X
                  (print PStart (mkdir output_dir w)))).
  assert (Hm : match_here (group0 m ++ post) = Some m).
  { unfold group0, m. cbn [group1 group2]. rewrite <- !app_assoc.
    now apply match_here_complete. }
  assert (He : extracted b64decode writable output_dir (0 + 1) m = Some X).
  { unfold extracted. cbn [group2 m]. rewrite Hd.
    change (0 + 1) with 1. now rewrite Hw. }
  destruct (re_sub_match (replace_base64 b64decode writable leftover output_dir)
              _ m (0, print PStart (mkdir output_dir w)) Hm)
    as (rest & Hs & Hr).
  apply app_inv_head in Hs. subst rest.
  rewrite (replace_base64_extracted _ _ _ _ _ _ _ _ He) in Hr. cbn [fst snd] in Hr.
  change (0 + 1) with 1 in Hr. fold w1 in Hr.
  unfold extract_base64_images.
  rewrite (re_sub_skip _ _ _ _ Hpre), Hr. cbn [fst snd].
  unfold re_sub at 1 2. rewrite sub_tokens_run. cbn [fst snd files].
  unfold print at 1. cbn [files]. split.
  - rewrite read_file_app_notin.
    + unfold w1. cbn [print write_file files]. apply read_file_head.
    + rewrite map_rev, <- in_rev. intros H.
      destruct (writes_index _ _ _ _ _ _ _ H) as (n & m' & E & Hn).
      apply filepath_inj in E. lia.
  - unfold re_sub. rewrite sub_tokens_run. reflexivity.
Qed.

(** C2.  Let the span [data:image/png;base64,B] be the first match of the
    document: the pattern matches there with [B] as its payload, and nowhere
    in the text [pre] before it.  When [B] decodes to [X] and the file can be
    written, the run leaves a file [image_0001.png] in the output directory
    whose contents are [X], and the returned text is [pre], then
    [./<output_dir>/image_0001.png] in place of the span, then what the run
    makes of the text [post] after it. *)
Theorem first_png_match_extracted (X : bytes) (B pre post : str) (w : World) :
  match_here (lit "data:image/png;base64," ++ B ++ post)
  = Some (mkMatch (lit "png") B) ->
  no_match_within pre (lit "data:image/png;base64," ++ B ++ post) ->
  b64decode B = Some X ->
  writable (path_join output_dir (lit "image_0001.png")) X = true ->
  let r := extract_base64_images b64decode writable leftover
             (pre ++ lit "data:image/png;base64," ++ B ++ post) output_dir w in
  let w1 := print (PExtracted (lit "image_0001.png") (length X))
              (write_file (path_join output_dir (lit "image_0001.png")) X
                 (print PStart (mkdir output_dir w))) in
  read_file (path_join output_dir (lit "image_0001.png")) (files (snd r))
  = Some X
  /\ fst r
     = pre ++ (lit "./" ++ output_dir ++ lit "/image_0001.png")
         ++ fst (re_sub (replace_base64 b64decode writable leftover output_dir) post (1, w1)).
Proof.
  intros Hm Hpre Hd Hw.
  destruct (match_here_spec _ _ Hm) as (Hty & Hne & Hb & rest & Hs & Hp).
  cbn [group1 group2] in Hty, Hne, Hb.
  change (lit "data:image/png;base64," ++ B ++ post)
    with (group0 (mkMatch (lit "png") B) ++ post) in Hs.
  apply app_inv_head in Hs. subst rest.
  exact (first_match_extracted (lit "png") B pre post X w
           Hty Hne Hb Hd Hp Hpre Hw).
Qed.

End RoundTrip.

(** ** The decoder on encoded bytes *)

Module Base64Facts.

Import Base64.
Local Open Scope N_scope.

Definition below (n : nat) : list N := map N.of_nat (seq 0 n).

Lemma below_spec (n : nat) (v : N) : v < N.of_nat n -> In v (below n).
Proof.
  intros H. unfold below. apply in_map_iff. exists (N.to_nat v).
  split; [apply N2Nat.id|]. apply in_seq. lia.
Qed.

Lemma all1 (P : N -> bool) (n : nat) :
  forallb P (below n) = true -> forall a, a < N.of_nat n -> P a = true.
Proof.
  intros H a Ha. rewrite forallb_forall in H. apply H, below_spec, Ha.
Qed.

Lemma all2 (P : N -> N -> bool) (n : nat) :
  forallb (fun a => forallb (P a) (below n)) (below n) = true ->
  forall a b, a < N.of_nat n -> b < N.of_nat n -> P a b = true.
Proof.
  intros H a b Ha Hb. rewrite forallb_forall in H.
  apply (all1 (P a) n); auto. apply H, below_spec, Ha.
Qed.

(** The two tables are inverse on 6-bit values, and no alphabet character
    is the padding character or lies outside ASCII. *)
Lemma sextet_char (v : N) :
  v < 64 ->
  let c := N_of_ascii (table_b2a_base64 v) in
  (c =? BASE64_PAD) = false /\ table_a2b_base64 c = v /\ (c <? 128) = true.
Proof.
  intros Hv.
  pose proof (all1 (fun v =>
    let c := N_of_ascii (table_b2a_base64 v) in
    negb (c =? BASE64_PAD) && (table_a2b_base64 c =? v) && (c <? 128))
    64 eq_refl v Hv) as H.
  cbv zeta in H |- *.
  apply andb_true_iff in H. destruct H as [H H3].
  apply andb_true_iff in H. destruct H as [H1 H2].
  apply negb_true_iff in H1. apply N.eqb_eq in H2. auto.
Qed.

(** One turn of the loop on an alphabet character. *)
Lemma a2b_loop_sextet (v : N) (data : list N) (q l p : N) (out : bytes) :
  v < 64 ->
  a2b_loop (N_of_ascii (table_b2a_base64 v) :: data) q l p out
  = match q with
    | 0 => a2b_loop data 1 v 0 out
    | 1 => a2b_loop data 2 (u8 (N.land v 15)) 0
             (out ++ [u8 (N.lor (N.shiftl l 2) (N.shiftr v 4))])
    | 2 => a2b_loop data 3 (u8 (N.land v 3)) 0
             (out ++ [u8 (N.lor (N.shiftl l 4) (N.shiftr v 2))])
    | _ => a2b_loop data 0 0 0 (out ++ [u8 (N.lor (N.shiftl l 6) v)])
    end.
Proof.
  intros Hv. destruct (sextet_char v Hv) as (H1 & H2 & _).
  cbv zeta in H1, H2. cbn [a2b_loop]. rewrite H1, H2.
  apply N.leb_gt in Hv. rewrite Hv. reflexivity.
Qed.

(** The four sextets of three bytes. *)
Definition s1 (a : N) : N := N.shiftr a 2.
Definition s2 (a b : N) : N := N.lor (N.shiftl (N.land a 3) 4) (N.shiftr b 4).
Definition s3 (b c : N) : N := N.lor (N.shiftl (N.land b 15) 2) (N.shiftr c 6).
Definition s4 (c : N) : N := N.land c 63.

Lemma sextets_12 (a b : N) :
  a < 256 -> b < 256 ->
  s1 a < 64 /\ s2 a b < 64
  /\ u8 (N.lor (N.shiftl (s1 a) 2) (N.shiftr (s2 a b) 4)) = a
  /\ u8 (N.land (s2 a b) 15) = N.shiftr b 4.
Proof.
  intros Ha Hb.
  pose proof (all2 (fun a b =>
    (s1 a <? 64) && (s2 a b <? 64)
    && (u8 (N.lor (N.shiftl (s1 a) 2) (N.shiftr (s2 a b) 4)) =? a)
    && (u8 (N.land (s2 a b) 15) =? N.shiftr b 4)) 256) as H.
  specialize (H ltac:(vm_compute; reflexivity) a b Ha Hb). cbv beta in H.
  repeat (apply andb_true_iff in H; destruct H as [H ?]).
  repeat split; try (now apply N.ltb_lt); now apply N.eqb_eq.
Qed.

Lemma sextets_34 (b c : N) :
  b < 256 -> c < 256 ->
  s3 b c < 64 /\ s4 c < 64
  /\ u8 (N.lor (N.shiftl (N.shiftr b 4) 4) (N.shiftr (s3 b c) 2)) = b
  /\ u8 (N.lor (N.shiftl (u8 (N.land (s3 b c) 3)) 6) (s4 c)) = c.
Proof.
  intros Hb Hc.
  pose proof (all2 (fun b c =>
    (s3 b c <? 64) && (s4 c <? 64)
    && (u8 (N.lor (N.shiftl (N.shiftr b 4) 4) (N.shiftr (s3 b c) 2)) =? b)
    && (u8 (N.lor (N.shiftl (u8 (N.land (s3 b c) 3)) 6) (s4 c)) =? c)) 256) as H.
  specialize (H ltac:(vm_compute; reflexivity) b c Hb Hc). cbv beta in H.
  repeat (apply andb_true_iff in H; destruct H as [H ?]).
  repeat split; try (now apply N.ltb_lt); now apply N.eqb_eq.
Qed.

Definition is_byte (b : N) : Prop := b < 256.

Lemma b64encode_1 (a : N) :
  b64encode [a]
  = [table_b2a_base64 (s1 a); table_b2a_base64 (s2 a 0); "="%char; "="%char].
Proof.
  unfold s2. change (N.shiftr 0 4) with 0. now rewrite N.lor_0_r.
Qed.

Lemma b64encode_2 (a b : N) :
  b64encode [a; b]
  = [table_b2a_base64 (s1 a); table_b2a_base64 (s2 a b);
     table_b2a_base64 (s3 b 0); "="%char].
Proof.
  unfold s3. change (N.shiftr 0 6) with 0. now rewrite N.lor_0_r.
Qed.

Lemma a2b_loop_encode (x : bytes) (l p : N) (out : bytes) :
  Forall is_byte x ->
  a2b_loop (map N_of_ascii (b64encode x)) 0 l p out = Some (out ++ x).
Proof.
  remember (length x) as n eqn:Hn. revert x l p out Hn.
  induction n as [n IH] using lt_wf_ind. intros x l p out Hn Hx.
  destruct x as [|a [|b [|c x]]].
  - simpl. now rewrite app_nil_r.
  - apply Forall_inv in Hx.
    destruct (sextets_12 a 0 Hx eq_refl) as (H1 & H2 & H3 & _).
    rewrite (b64encode_1 a).
    cbn [map]. rewrite (a2b_loop_sextet _ _ _ _ _ _ H1).
    rewrite (a2b_loop_sextet _ _ _ _ _ _ H2). rewrite H3. reflexivity.
  - pose proof (Forall_inv Hx) as Ha.
    pose proof (Forall_inv (Forall_inv_tail Hx)) as Hb.
    destruct (sextets_12 a b Ha Hb) as (H1 & H2 & H3 & H4).
    destruct (sextets_34 b 0 Hb eq_refl) as (H5 & _ & H7 & _).
    rewrite (b64encode_2 a b).
    cbn [map]. rewrite (a2b_loop_sextet _ _ _ _ _ _ H1).
    rewrite (a2b_loop_sextet _ _ _ _ _ _ H2), H3, H4.
    rewrite (a2b_loop_sextet _ _ _ _ _ _ H5), H7.
    cbn. now rewrite <- app_assoc.
  - pose proof (Forall_inv Hx) as Ha.
    pose proof (Forall_inv (Forall_inv_tail Hx)) as Hb.
    pose proof (Forall_inv (Forall_inv_tail (Forall_inv_tail Hx))) as Hc.
    pose proof (Forall_inv_tail (Forall_inv_tail (Forall_inv_tail Hx))) as Hx'.
    destruct (sextets_12 a b Ha Hb) as (H1 & H2 & H3 & H4).
    destruct (sextets_34 b c Hb Hc) as (H5 & H6 & H7 & H8).
    change (b64encode (a :: b :: c :: x))
      with (table_b2a_base64 (s1 a) :: table_b2a_base64 (s2 a b)
            :: table_b2a_base64 (s3 b c) :: table_b2a_base64 (s4 c)
            :: b64encode x).
    cbn [map]. rewrite (a2b_loop_sextet _ _ _ _ _ _ H1).
    rewrite (a2b_loop_sextet _ _ _ _ _ _ H2), H3, H4.
    rewrite (a2b_loop_sextet _ _ _ _ _ _ H5), H7.
    rewrite (a2b_loop_sextet _ _ _ _ _ _ H6), H8.
    rewrite (IH (length x)); [|subst n; simpl; lia|reflexivity|exact Hx'].
    now rewrite <- !app_assoc.
Qed.

(** Every character of an encoding is an alphabet character of a 6-bit
    value, or the padding. *)
Lemma b64encode_chars (P : ascii -> Prop) (x : bytes) :
  (forall v, v < 64 -> P (table_b2a_base64 v)) -> P "="%char ->
  Forall is_byte x -> Forall P (b64encode x).
Proof.
  intros HP Hpad.
  remember (length x) as n eqn:Hn. revert x Hn.
  induction n as [n IH] using lt_wf_ind. intros x Hn Hx.
  destruct x as [|a [|b [|c x]]]; [constructor|..].
  - apply Forall_inv in Hx.
    destruct (sextets_12 a 0 Hx eq_refl) as (H1 & H2 & _).
    rewrite (b64encode_1 a). repeat constructor; auto.
  - pose proof (Forall_inv Hx) as Ha.
    pose proof (Forall_inv (Forall_inv_tail Hx)) as Hb.
    destruct (sextets_12 a b Ha Hb) as (H1 & H2 & _).
    destruct (sextets_34 b 0 Hb eq_refl) as (H5 & _).
    rewrite (b64encode_2 a b). repeat constructor; auto.
  - pose proof (Forall_inv Hx) as Ha.
    pose proof (Forall_inv (Forall_inv_tail Hx)) as Hb.
    pose proof (Forall_inv (Forall_inv_tail (Forall_inv_tail Hx))) as Hc.
    pose proof (Forall_inv_tail (Forall_inv_tail (Forall_inv_tail Hx))) as Hx'.
    destruct (sextets_12 a b Ha Hb) as (H1 & H2 & _).
    destruct (sextets_34 b c Hb Hc) as (H5 & H6 & _).
    change (b64encode (a :: b :: c :: x))
      with (table_b2a_base64 (s1 a) :: table_b2a_base64 (s2 a b)
            :: table_b2a_base64 (s3 b c) :: table_b2a_base64 (s4 c)
            :: b64encode x).
    repeat (constructor; auto).
    apply (IH (length x)); [subst n; simpl; lia|reflexivity|exact Hx'].
Qed.

Lemma b64encode_ascii (x : bytes) :
  Forall is_byte x ->
  forallb (fun c => N_of_ascii c <? 128) (b64encode x) = true.
Proof.
  intros Hx. apply forallb_forall. apply Forall_forall.
  apply b64encode_chars; [|reflexivity|exact Hx].
  intros v Hv. apply (sextet_char v Hv).
Qed.

Lemma sextet_is_b64char (v : N) :
  v < 64 -> is_b64char (table_b2a_base64 v) = true.
Proof.
  apply (all1 (fun v => is_b64char (table_b2a_base64 v)) 64). reflexivity.
Qed.

(** The encoding of bytes is a payload: alphabet characters only, and at
    least one of them unless there are no bytes. *)
Lemma b64encode_payload (x : bytes) :
  Forall is_byte x ->
  forallb is_b64char (b64encode x) = true /\ (x <> [] -> b64encode x <> []).
Proof.
  intros Hx. split.
  - apply forallb_forall. apply Forall_forall.
    apply b64encode_chars; [exact sextet_is_b64char|reflexivity|exact Hx].
  - destruct x as [|a [|b [|c x]]]; [contradiction|discriminate..].
Qed.

(** Decoding the standard encoding of a byte sequence gives it back. *)
Lemma b64decode_b64encode (x : bytes) :
  Forall is_byte x -> b64decode (b64encode x) = Some x.
Proof.
  intros Hx. unfold b64decode, encode_ascii, a2b_base64.
  rewrite (b64encode_ascii x Hx). apply (a2b_loop_encode x 0 0 [] Hx).
Qed.

End Base64Facts.

(** X11.  With CPython's decoder, every non-empty sequence of bytes has such
    a payload, its standard encoding: as the first match of a document it is
    written back byte for byte, whatever recognized subtype it is declared
    with. *)
Lemma encoded_image_extracted (ty pre post : str) (X : bytes) (w : World)
    (writable : str -> bytes -> bool)
    (leftover : str -> bytes -> option bytes) (output_dir : str) :
  In ty subtypes -> X <> [] -> Forall Base64Facts.is_byte X ->
  hd_b64 post = false ->
  no_match_within pre (group0 (mkMatch ty (Base64.b64encode X)) ++ post) ->
  writable (filepath output_dir 1 (mkMatch ty (Base64.b64encode X))) X = true ->
  let m := mkMatch ty (Base64.b64encode X) in
  let r := extract_base64_images Base64.b64decode writable leftover
             (pre ++ group0 m ++ post) output_dir w in
  read_file (filepath output_dir 1 m) (files (snd r)) = Some X
  /\ exists out, fst r = pre ++ reference output_dir 1 m ++ out.
Proof.
  intros Hty Hne Hx Hp Hpre Hw m r.
  destruct (Base64Facts.b64encode_payload X Hx) as (Hb & Hn).
  destruct (first_match_extracted Base64.b64decode writable leftover output_dir
              ty (Base64.b64encode X) pre post X w Hty (Hn Hne) Hb
              (Base64Facts.b64decode_b64encode X Hx) Hp Hpre Hw) as (H1 & H2).
  split; [exact H1|]. eexists. exact H2.
Qed.

(** ** Having no data URI, decided by the matcher *)

Lemma data_uri_matches (ty payload post : str) :
  In ty subtypes -> payload <> [] -> forallb is_b64char payload = true ->
  match_here (lit "data:image/" ++ ty ++ lit ";base64," ++ payload ++ post)
  <> None.
Proof.
  intros Hty Hne Hp.
  destruct (take_b64_spec post) as (E & F & G).
  rewrite E, (app_assoc payload).
  rewrite match_here_complete; auto; [discriminate|..].
  - destruct payload; [contradiction|discriminate].
  - rewrite forallb_app, Hp, F. reflexivity.
Qed.

Lemma no_match_no_data_uri (html : str) :
  no_match_within html [] -> no_data_uri html.
Proof.
  intros N pre ty payload post Hty Hne Hp E. subst html.
  apply no_match_within_app in N. destruct N as [_ N].
  simpl in N. destruct N as [N _]. rewrite app_nil_r in N.
  now apply (data_uri_matches ty payload post Hty Hne Hp).
Qed.

(** ** The script's defaults, and runs on concrete documents *)

Definition always_writable (_ : str) (_ : bytes) : bool := true.

Definition no_leftover (_ : str) (_ : bytes) : option bytes := None.

Definition empty_world : World := mkWorld [] [] [].

(** [extract_base64_images(html)] with the default [output_dir="images"],
    CPython's decoder and a file system that accepts every write. *)
Definition run_default (html : str) : str * World :=
  extract_base64_images Base64.b64decode always_writable no_leftover html (lit "images")
    empty_world.

(** The numbers of the closing report ([Total images extracted: n]). *)
Definition reported_totals (out : list event) : list nat :=
  flat_map (fun e => match e with PTotal n => [n] | _ => [] end) out.

(** The matches a run reported as failed ([Error extracting image n]). *)
Definition reported_errors (out : list event) : list nat :=
  flat_map (fun e => match e with PError n => [n] | _ => [] end) out.

(** C3 as stated fails on its failure count: on a document with one good
    and one corrupt match the run reports one number only, the counter that
    both matches advanced, and it is not the number of failed matches. *)
Lemma failure_count_not_kept :
  let html :=
    lit "<img src='data:image/png;base64,QUJD'><img src='data:image/gif;base64,A'>" in
  let out := stdout (snd (run_default html)) in
  out = [PStart; PExtracted (lit "image_0001.png") 3; PError 2; PTotal 2]
  /\ length (reported_errors out) = 1
  /\ reported_totals out = [2]
  /\ ~ In (length (reported_errors out)) (reported_totals out).
Proof. vm_compute. repeat split. intros [H|[]]. discriminate. Qed.

(** C4 on the code: a document whose only match is corrupt.  Nothing is
    extracted, no file is written, and the run reports a total of one. *)
Lemma total_counts_failed_match :
  let html := lit "<img src='data:image/png;base64,A'>" in
  let w := snd (run_default html) in
  fst (run_default html) = html
  /\ files w = []
  /\ stdout w = [PStart; PError 1; PTotal 1].
Proof. vm_compute. repeat split. Qed.


(** ** The default output file *)

Lemma split_slash_no_slash (s : str) : ~ In "/" s -> split_slash s = [s].
Proof.
  induction s as [|c s IH]; intros H; simpl; [reflexivity|].
  destruct (ascii_eqb c "/") eqn:E.
  - apply ascii_eqb_eq in E. subst c. exfalso. apply H. now left.
  - rewrite IH; [reflexivity|]. intros Hin. apply H. now right.
Qed.

Lemma split_slash_part (s p : str) : In p (split_slash s) -> ~ In "/" p.
Proof.
  revert p. induction s as [|c s IH]; intros p; simpl.
  - intros [<-|[]]. intros [].
  - destruct (ascii_eqb c "/") eqn:E.
    + intros [<-|H]; [intros []|auto].
    + apply ascii_eqb_neq in E.
      destruct (split_slash s) as [|q ps]; simpl.
      * intros [<-|[]]. intros [H|[]]. congruence.
      * intros [<-|H].
        -- intros [H|H]; [congruence|]. apply (IH q); [now left|exact H].
        -- apply IH. now right.
Qed.

Lemma last_in {A : Type} (l : list A) (d : A) : l <> [] -> In (last l d) l.
Proof.
  induction l as [|a [|b l] IH]; intros H; [contradiction|now left|].
  right. apply IH. discriminate.
Qed.

Lemma path_name_no_slash (s : str) : ~ In "/" (path_name s).
Proof.
  unfold path_name. destruct (path_parts s) as [|p ps] eqn:E; [intros []|].
  rewrite <- E. assert (H : In (last (path_parts s) []) (path_parts s))
    by (apply last_in; rewrite E; discriminate).
  apply filter_In in H. apply (split_slash_part s), H.
Qed.

Lemma default_output_no_slash (input_file : str) :
  ~ In "/" (path_stem input_file ++ lit "_optimized" ++ path_suffix input_file).
Proof.
  pose proof (path_name_no_slash input_file) as N.
  unfold path_stem, path_suffix.
  assert (O : ~ In "/" (lit "_optimized")) by (simpl; intuition discriminate).
  destruct (suffix_index (path_name input_file)) as [i|];
    rewrite !in_app_iff; intros [H|[H|H]]; try contradiction.
  - apply N. rewrite <- (firstn_skipn i). apply in_app_iff. now left.
  - apply N. rewrite <- (firstn_skipn i). apply in_app_iff. now right.
Qed.

(** A name without slash, other than the empty name and [.], is a path of
    one component, relative to the current directory. *)
Lemma bare_name_path (s : str) :
  ~ In "/" s -> 2 <= length s ->
  path_str s = s /\ path_name s = s /\ path_parent s = (false, []).
Proof.
  intros H L.
  assert (P : path_parts s = [s]).
  { assert (E1 : str_eqb s [] = false)
      by (apply str_eqb_neq; intros ->; simpl in L; lia).
    assert (E2 : str_eqb s (lit ".") = false)
      by (apply str_eqb_neq; intros ->; simpl in L; lia).
    unfold path_parts. rewrite (split_slash_no_slash s H). cbn [filter].
    now rewrite E1, E2. }
  assert (A : is_absolute s = false).
  { unfold is_absolute. destruct s as [|a s]; [reflexivity|]. simpl.
    apply ascii_eqb_neq. intros ->. apply H. now left. }
  unfold path_str, path_name, path_parent. rewrite P, A. auto.
Qed.

Section DefaultOutput.

Variable b64decode : str -> option bytes.
Variable writable : str -> bytes -> bool.
Variable leftover : str -> bytes -> option bytes.
Variable decode_text : bytes -> str.
Variable encode_text : str -> bytes.
Variable dir_size : nat.

Lemma mkdir_raises_print (d : str) (e : event) (w : World) :
  mkdir_raises d (print e w) = mkdir_raises d w.
Proof. reflexivity. Qed.

(** The default output in general.  Without an output argument, when the
    input file exists, the [mkdir] of [images] does not raise and the
    output can be written, the rewritten text is written to
    [<stem>_optimized<suffix>] of the input's name.  That is a bare file
    name: a relative path of one component, whatever directory the input is
    in. *)
Theorem default_output_file (input_file : str) (data : bytes) (w : World) :
  read_file (path_str input_file) (files w) = Some data ->
  mkdir_raises (lit "images") w = false ->
  let out := path_stem input_file ++ lit "_optimized" ++ path_suffix input_file in
  let r := extract_base64_images b64decode writable leftover (decode_text data)
             (lit "images")
             (print (PReading input_file)
                (print (POriginalSize (length data)) w)) in
  writable out (encode_text (fst r)) = true ->
  files (snd (process_html_file b64decode writable leftover decode_text encode_text
                dir_size input_file None w))
  = (out, encode_text (fst r)) :: files (snd r)
  /\ path_str out = out
  /\ path_name out = out
  /\ path_parent out = (false, []).
Proof.
  intros Hin Himg out r Hw.
  assert (B : path_str out = out /\ path_name out = out
              /\ path_parent out = (false, [])).
  { apply bare_name_path; [apply default_output_no_slash|].
    unfold out. rewrite !length_app. simpl. lia. }
  split; [|exact B]. destruct B as (B & _).
  unfold process_html_file, path_exists, extract_base64_images_call.
  fold out. rewrite B, !mkdir_raises_print, Himg.
  cbn [print files]. rewrite Hin. cbn [negb].
  fold r. destruct r as [modified_html w1] eqn:Er. cbn [fst snd] in *.
  rewrite Hw. now destruct (length data =? 0)%nat.
Qed.

End DefaultOutput.

(** Reading in text mode translates the line endings [\r\n] and [\r] to
    [\n]. *)
Fixpoint universal_newlines (s : str) : str :=
  match s with
  | [] => []
  | c :: s' =>
      if ascii_eqb c "013" then
        "010" :: match s' with
                 | c' :: s'' =>
                     if ascii_eqb c' "010" then universal_newlines s''
                     else universal_newlines s'
                 | [] => []
                 end
      else c :: universal_newlines s'
  end.

(** The text of a file that is not valid UTF-8, read by the fallback: one
    character per byte.  On an ASCII file, which is what the examples use,
    the first attempt (UTF-8) reads these same characters.  The text is
    written as UTF-8. *)
Definition latin1_decode (d : bytes) : str :=
  universal_newlines (map ascii_of_N d).

Definition utf8_encode (s : str) : bytes :=
  flat_map (fun c =>
              let n := N_of_ascii c in
              if (n <? 128)%N then [n]
              else [N.lor 192 (N.shiftr n 6); N.lor 128 (N.land n 63)]) s.

Definition process_default (input_file : str) (output_file : option str)
    (w : World) : ending * World :=
  process_html_file Base64.b64decode always_writable no_leftover latin1_decode utf8_encode
    4096 input_file output_file w.

(** C8 on the code: for an input in another directory, the output does
    not go next to the input.  The default name keeps the stem and the suffix
    of the input and drops its directory, so the file is opened as
    [page_optimized.html], a path relative to the current directory, and
    nothing is written at [site/page_optimized.html]. *)
Lemma default_output_not_beside_input :
  let input_file := lit "site/page.html" in
  let w := mkWorld [] [(lit "site/page.html", utf8_encode (lit "<p>hi</p>"))] [] in
  let w' := snd (process_default input_file None w) in
  map fst (files w') = [lit "page_optimized.html"; lit "site/page.html"]
  /\ path_parent (lit "page_optimized.html") = (false, [])
  /\ path_parent input_file = (false, [lit "site"])
  /\ read_file (lit "site/page_optimized.html") (files w') = None.
Proof. vm_compute. repeat split. Qed.

(** ** The theorems at concrete documents *)

Definition abc_bytes : bytes := [65; 66; 67]%N.

Lemma first_png_match_extracted_witness :
  (match_here (lit "data:image/png;base64," ++ lit "QUJD" ++ lit "'>")
   = Some (mkMatch (lit "png") (lit "QUJD"))
   /\ no_match_within (lit "<img src='")
        (lit "data:image/png;base64," ++ lit "QUJD" ++ lit "'>")
   /\ Base64.b64decode (lit "QUJD") = Some abc_bytes
   /\ always_writable (path_join (lit "images") (lit "image_0001.png")) abc_bytes
      = true)
  /\ read_file (lit "images/image_0001.png")
       (files (snd (run_default
          (lit "<img src='" ++ lit "data:image/png;base64," ++ lit "QUJD" ++ lit "'>"))))
     = Some abc_bytes
  /\ fst (run_default
       (lit "<img src='" ++ lit "data:image/png;base64," ++ lit "QUJD" ++ lit "'>"))
     = lit "<img src='./images/image_0001.png'>".
Proof.
  assert (H1 : match_here (lit "data:image/png;base64," ++ lit "QUJD" ++ lit "'>")
               = Some (mkMatch (lit "png") (lit "QUJD"))) by reflexivity.
  assert (H2 : no_match_within (lit "<img src='")
                 (lit "data:image/png;base64," ++ lit "QUJD" ++ lit "'>"))
    by (simpl; repeat split; reflexivity).
  assert (H3 : Base64.b64decode (lit "QUJD") = Some abc_bytes) by reflexivity.
  assert (H4 : always_writable (path_join (lit "images") (lit "image_0001.png"))
                 abc_bytes = true) by reflexivity.
  split; [repeat split; assumption|].
  pose proof (first_png_match_extracted Base64.b64decode always_writable
                no_leftover (lit "images") abc_bytes (lit "QUJD")
                (lit "<img src='") (lit "'>") empty_world H1 H2 H3 H4) as H.
  vm_compute in H. vm_compute. exact H.
Defined.

Lemma failed_match_left_verbatim_witness :
  (match_here (lit "data:image/gif;base64,A'>") = Some (mkMatch (lit "gif") (lit "A"))
   /\ Base64.b64decode (lit "A") = None)
  /\ replace_base64 Base64.b64decode always_writable no_leftover (lit "images")
       (mkMatch (lit "gif") (lit "A")) (0, empty_world)
     = (lit "data:image/gif;base64,A", (1, mkWorld [] [] [PError 1])).
Proof.
  assert (H1 : match_here (lit "data:image/gif;base64,A'>")
               = Some (mkMatch (lit "gif") (lit "A"))) by reflexivity.
  assert (H2 : Base64.b64decode (lit "A") = None) by reflexivity.
  split; [split; assumption|].
  exact (proj1 (failed_match_left_verbatim Base64.b64decode always_writable no_leftover
                  (lit "images") _ _ 0 empty_world H1 H2)).
Defined.

Definition three_images : str :=
  lit "<img src='data:image/png;base64,QUJD'><img src='data:image/jpeg;base64,QQ=='><img src='data:image/svg+xml;base64,QUI='>".

Lemma sequence_numbers_in_scan_order_witness :
  matches_of (finditer three_images)
  = [mkMatch (lit "png") (lit "QUJD"); mkMatch (lit "jpeg") (lit "QQ==");
     mkMatch (lit "svg+xml") (lit "QUI=")]
  /\ files (snd (run_default three_images))
     = [(lit "images/image_0003.svg", [65; 66]%N);
        (lit "images/image_0002.jpeg", [65]%N);
        (lit "images/image_0001.png", [65; 66; 67]%N)].
Proof.
  assert (H0 : matches_of (finditer three_images)
               = [mkMatch (lit "png") (lit "QUJD"); mkMatch (lit "jpeg") (lit "QQ==");
                  mkMatch (lit "svg+xml") (lit "QUI=")]) by (vm_compute; reflexivity).
  split; [exact H0|].
  exact (proj2 (proj2 (sequence_numbers_in_scan_order Base64.b64decode
                         always_writable no_leftover (lit "images") three_images empty_world))
           _ _ _ _ _ _ H0 eq_refl eq_refl eq_refl).
Defined.

Lemma no_data_uri_unchanged_witness :
  no_data_uri (lit "<p>data:image/png;base64,</p>")
  /\ run_default (lit "<p>data:image/png;base64,</p>")
     = (lit "<p>data:image/png;base64,</p>",
        mkWorld [lit "images"] [] [PStart; PTotal 0]).
Proof.
  assert (H : no_data_uri (lit "<p>data:image/png;base64,</p>"))
    by (apply no_match_no_data_uri; simpl; repeat split; reflexivity).
  split; [exact H|].
  exact (no_data_uri_unchanged Base64.b64decode always_writable no_leftover (lit "images")
           _ empty_world H).
Defined.

Lemma empty_payload_not_matched_witness :
  (In (lit "png") subtypes /\ hd_b64 (lit "'>") = false)
  /\ run_default (lit "data:image/png;base64," ++ lit "'>")
     = (lit "data:image/png;base64,'>",
        mkWorld [lit "images"] [] [PStart; PTotal 0]).
Proof.
  assert (H1 : In (lit "png") subtypes) by (simpl; auto).
  assert (H2 : hd_b64 (lit "'>") = false) by reflexivity.
  split; [split; assumption|].
  pose proof (proj2 (proj2 (empty_payload_not_matched Base64.b64decode
                              always_writable no_leftover (lit "images") _ _ H1 H2))
                empty_world) as H.
  vm_compute in H. vm_compute. exact H.
Defined.


Definition page_world : World :=
  mkWorld [] [(lit "page.html", utf8_encode (lit "<p>hi</p>"))] [].

Lemma default_output_file_witness :
  (read_file (path_str (lit "page.html")) (files page_world)
   = Some (utf8_encode (lit "<p>hi</p>"))
   /\ mkdir_raises (lit "images") page_world = false
   /\ always_writable (lit "page_optimized.html") (utf8_encode (lit "<p>hi</p>"))
      = true)
  /\ files (snd (process_default (lit "page.html") None page_world))
     = [(lit "page_optimized.html", utf8_encode (lit "<p>hi</p>"));
        (lit "page.html", utf8_encode (lit "<p>hi</p>"))].
Proof.
  assert (H1 : read_file (path_str (lit "page.html")) (files page_world)
               = Some (utf8_encode (lit "<p>hi</p>"))) by reflexivity.
  assert (H2 : mkdir_raises (lit "images") page_world = false) by reflexivity.
  split; [repeat split; assumption|].
  pose proof (proj1 (default_output_file Base64.b64decode always_writable
                       no_leftover latin1_decode utf8_encode 4096
                       (lit "page.html") _ page_world H1 H2 eq_refl)) as H.
  vm_compute in H. vm_compute. exact H.
Defined.

(** * Further properties of the code *)

(** ** The pattern, characterized *)

(** X1.  The pattern matches at the head of a text exactly when the text is
    [data:image/], a recognized subtype, [;base64,] and a non-empty run of
    alphabet characters that the text does not continue; the groups are that
    subtype and that whole run. *)
Theorem match_here_iff (s : str) (m : Match) :
  match_here s = Some m
  <-> In (group1 m) subtypes /\ group2 m <> []
      /\ forallb is_b64char (group2 m) = true
      /\ exists rest, s = group0 m ++ rest /\ hd_b64 rest = false.
Proof.
  split; [apply match_here_spec|].
  intros (H1 & H2 & H3 & rest & -> & H4). destruct m as [ty payload].
  unfold group0. cbn [group1 group2] in *. rewrite <- !app_assoc.
  now apply match_here_complete.
Qed.

(** ** What a run writes and reports *)

(** The extensions of the files a run can write. *)
Definition extensions : list str :=
  [lit "png"; lit "jpeg"; lit "jpg"; lit "gif"; lit "webp"; lit "svg"].

Lemma extension_recognized (m : Match) :
  In (group1 m) subtypes -> In (extension m) extensions.
Proof.
  unfold extension, subtypes, extensions. simpl.
  intros H; repeat (destruct H as [<-|H]; [simpl; tauto|]). contradiction.
Qed.

Lemma read_file_app (p : str) (ws fl : list (str * bytes)) :
  read_file p (ws ++ fl)
  = match read_file p ws with
    | Some d => Some d
    | None => read_file p fl
    end.
Proof.
  induction ws as [|[q d] ws IH]; simpl; [reflexivity|].
  now destruct (str_eqb q p).
Qed.

Lemma reported_errors_app (a b : list event) :
  reported_errors (a ++ b) = reported_errors a ++ reported_errors b.
Proof. apply flat_map_app. Qed.

Lemma reported_totals_app (a b : list event) :
  reported_totals (a ++ b) = reported_totals a ++ reported_totals b.
Proof. apply flat_map_app. Qed.

(** The files a run reported as extracted ([Extracted: <filename>]). *)
Definition reported_extracted (out : list event) : list str :=
  flat_map (fun e => match e with PExtracted f _ => [f] | _ => [] end) out.

Lemma reported_extracted_app (a b : list event) :
  reported_extracted (a ++ b) = reported_extracted a ++ reported_extracted b.
Proof. apply flat_map_app. Qed.

Section Accounting.

Variable b64decode : str -> option bytes.
Variable writable : str -> bytes -> bool.
Variable leftover : str -> bytes -> option bytes.
Variable output_dir : str.

Lemma writes_named (k : nat) (toks : list token) :
  (forall m, In (TMatch m) toks -> In (group1 m) subtypes) ->
  Forall (fun pd =>
            exists n ext,
              fst pd = path_join output_dir
                         (lit "image_" ++ format_04d n ++ lit "." ++ ext)
              /\ k < n <= k + length (matches_of toks)
              /\ In ext extensions)
         (writes b64decode writable leftover output_dir k toks).
Proof.
  revert k. induction toks as [|[c|m] toks IH]; intros k H; simpl.
  - constructor.
  - apply IH. intros m Hm. apply H. now right.
  - apply Forall_app. split.
    + destruct (attempted_cases b64decode writable leftover output_dir (k + 1) m)
        as [E|(d & E)]; rewrite E; constructor; [|constructor].
      exists (k + 1), (extension m). repeat split; try lia.
      apply extension_recognized, H. now left.
    + assert (IH' := IH (k + 1) (fun m' Hm => H m' (or_intror Hm))).
      eapply Forall_impl; [|exact IH'].
      intros pd (n & ext & E & Hn & He). exists n, ext.
      repeat split; auto; lia.
Qed.

Lemma prints_accounting (k : nat) (toks : list token) :
  reported_totals (prints b64decode writable output_dir k toks) = []
  /\ length (reported_extracted (prints b64decode writable output_dir k toks))
     + length (reported_errors (prints b64decode writable output_dir k toks))
     = length (matches_of toks)
  /\ length (reported_extracted (prints b64decode writable output_dir k toks))
     <= length (writes b64decode writable leftover output_dir k toks)
     <= length (matches_of toks).
Proof.
  revert k. induction toks as [|[c|m] toks IH]; intros k; simpl.
  - auto.
  - apply IH.
  - destruct (IH (k + 1)) as (T & L & B). rewrite length_app.
    destruct (extracted b64decode writable output_dir (k + 1) m) as [d|] eqn:E.
    + rewrite (attempted_extracted _ _ _ _ _ _ _ E). simpl.
      split; [exact T|]. lia.
    + destruct (attempted_cases b64decode writable leftover output_dir (k + 1) m)
        as [A|(d & A)]; rewrite A; simpl; (split; [exact T|]); lia.
Qed.

(** X2.  Every file a run writes is named [image_<n>.<ext>] in the output
    directory, where [n], zero-padded to four digits, runs between 1 and the
    number of matches and [ext] is one of png, jpeg, jpg, gif, webp, svg
    (never [svg+xml]). *)
Theorem written_files_named (html : str) (w : World) :
  exists ws : list (str * bytes),
    files (snd (extract_base64_images b64decode writable leftover html output_dir w))
    = ws ++ files w
    /\ Forall (fun pd =>
                 exists n ext,
                   fst pd = path_join output_dir
                              (lit "image_" ++ format_04d n ++ lit "." ++ ext)
                   /\ 1 <= n <= length (matches_of (finditer html))
                   /\ In ext extensions) ws.
Proof.
  rewrite extract_base64_images_run. cbn [snd files].
  eexists. split; [reflexivity|].
  apply Forall_rev.
  eapply Forall_impl; [|apply (writes_named 0 (finditer html))].
  - intros pd (n & ext & E & Hn & He). exists n, ext. repeat split; auto; lia.
  - intros m Hm. apply (finditer_matches html m Hm).
Qed.

(** X3.  The lines a run prints account for every match: it prints one
    total, the number of matches of the document, and its [Extracted] lines
    and its error lines add up to that number.  The files it created or
    changed are at least those it reported as extracted and at most one per
    match (a write that fails may leave a file behind). *)
Theorem run_accounting (html : str) (w : World) :
  exists (ws : list (str * bytes)) (new : list event),
    files (snd (extract_base64_images b64decode writable leftover html output_dir w))
    = ws ++ files w
    /\ stdout (snd (extract_base64_images b64decode writable leftover html output_dir w))
       = stdout w ++ new
    /\ reported_totals new = [length (matches_of (finditer html))]
    /\ length (reported_extracted new) + length (reported_errors new)
       = length (matches_of (finditer html))
    /\ length (reported_extracted new) <= length ws
       <= length (matches_of (finditer html)).
Proof.
  rewrite extract_base64_images_run. cbn [snd files stdout].
  destruct (prints_accounting 0 (finditer html)) as (T & L & B).
  eexists. eexists. split; [reflexivity|]. split; [reflexivity|].
  change (PStart :: ?l) with ([PStart] ++ l).
  rewrite !reported_totals_app, !reported_errors_app, !reported_extracted_app,
    T, length_rev.
  simpl. rewrite !app_nil_r. auto.
Qed.

(** X5.  A match whose payload decodes but whose file cannot be written is
    caught by the same [except] clause as a decoding error: the matched text
    stays, the sequence number is taken, an error line is printed and the
    scan continues after the match.  The file under that number is as it was
    when [open] failed, and holds what the broken write left when [open] had
    created or truncated it; nothing later in the run writes under that
    number. *)
Theorem unwritable_match_left_verbatim (text : str) (m : Match) (k : nat)
    (w : World) (d : bytes) :
  match_here text = Some m ->
  b64decode (group2 m) = Some d ->
  writable (filepath output_dir (k + 1) m) d = false ->
  let repl := replace_base64 b64decode writable leftover output_dir in
  let w1 := failed_write (leftover (filepath output_dir (k + 1) m) d)
              (filepath output_dir (k + 1) m) w in
  let st1 := (k + 1, print (PError (k + 1)) w1) in
  repl m (k, w) = (group0 m, st1)
  /\ exists rest,
       text = group0 m ++ rest
       /\ re_sub repl text (k, w)
          = (group0 m ++ fst (re_sub repl rest st1), snd (re_sub repl rest st1))
       /\ forall m',
            read_file (filepath output_dir (k + 1) m')
                      (files (snd (snd (re_sub repl text (k, w)))))
            = read_file (filepath output_dir (k + 1) m') (files w1).
Proof.
  intros Hm Hd Hw repl w1 st1.
  assert (R : repl m (k, w) = (group0 m, st1)).
  { unfold repl, replace_base64. cbn [fst snd]. rewrite Hd.
    unfold filepath, filename, extension in Hw. rewrite Hw. reflexivity. }
  split; [exact R|].
  destruct (re_sub_match repl text m (k, w) Hm) as (rest & Hs & Hr).
  exists rest. rewrite Hr, R. cbn [fst snd]. repeat split; auto.
  intros m'. unfold re_sub, repl, st1. rewrite sub_tokens_run.
  cbn [snd files print]. apply read_file_app_notin.
  rewrite map_rev, <- in_rev. intros H.
  destruct (writes_index _ _ _ _ _ _ _ H) as (n & m'' & E' & Hn).
  apply filepath_inj in E'. lia.
Qed.

Lemma mkdir_is_dir (d : str) (w : World) :
  is_dir (path_str d) (mkdir d w) = true.
Proof.
  unfold mkdir. destruct (is_dir (path_str d) w) eqn:E; [exact E|].
  unfold is_dir. cbn [dirs existsb]. rewrite str_eqb_refl.
  now rewrite orb_true_r.
Qed.

Lemma mkdir_again (d : str) (w w' : World) :
  dirs w' = dirs (mkdir d w) -> mkdir d w' = w'.
Proof.
  intros H. pose proof (mkdir_is_dir d w) as D.
  unfold mkdir at 1. unfold is_dir in *. rewrite H. now rewrite D.
Qed.

Lemma mkdir_idempotent (d : str) (w w' : World) :
  dirs w' = dirs (mkdir d w) -> dirs (mkdir d w') = dirs (mkdir d w).
Proof.
  intros H. now rewrite (mkdir_again d w w' H).
Qed.

(** X6.  Running the extraction a second time on the same document, in the
    world the first run left and with a file system that accepts the same
    writes, returns the same text, creates no further directory and leaves
    every path with the contents it had after the first run (same-named files
    are overwritten with the same bytes). *)
Theorem rerun_same_document (html : str) (w : World) :
  let r1 := extract_base64_images b64decode writable leftover html output_dir w in
  let r2 := extract_base64_images b64decode writable leftover html output_dir (snd r1) in
  fst r2 = fst r1
  /\ dirs (snd r2) = dirs (snd r1)
  /\ forall p, read_file p (files (snd r2)) = read_file p (files (snd r1)).
Proof.
  intros r1 r2. subst r1 r2. rewrite !extract_base64_images_run.
  cbn [fst snd dirs files]. split; [reflexivity|]. split.
  - now apply mkdir_idempotent.
  - intros p. rewrite !read_file_app.
    now destruct (read_file p (rev (writes b64decode writable leftover output_dir 0
                                      (finditer html)))).
Qed.

End Accounting.

(** ** File name digits *)

Definition is_digit (c : ascii) : bool := in_range "0" "9" c.

Lemma string_of_uint_digits (d : Decimal.uint) :
  forallb is_digit (lit (NilEmpty.string_of_uint d)) = true.
Proof. induction d; simpl; auto. Qed.

Lemma string_of_uint_length (d : Decimal.uint) :
  length (lit (NilEmpty.string_of_uint d)) = Decimal.nb_digits d.
Proof. induction d; simpl; auto. Qed.

Lemma nb_digits_iter_D0 (k : nat) (d : Decimal.uint) :
  Decimal.nb_digits (Nat.iter k Decimal.D0 d) = k + Decimal.nb_digits d.
Proof. induction k as [|k IH]; simpl; auto. Qed.

Lemma format_04d_length (n : nat) :
  length (format_04d n) = Nat.max 4 (Decimal.nb_digits (Nat.to_uint n)).
Proof.
  unfold format_04d. rewrite string_of_uint_length, nb_digits_iter_D0. lia.
Qed.

Lemma nb_digits_small (n : nat) :
  n < 100 * 100 -> Decimal.nb_digits (Nat.to_uint n) <= 4.
Proof.
  intros H.
  assert (A : forallb (fun n => (Decimal.nb_digits (Nat.to_uint n) <=? 4)%nat)
                (seq 0 (100 * 100)) = true) by (vm_compute; reflexivity).
  rewrite forallb_forall in A. apply Nat.leb_le, A, in_seq. lia.
Qed.

(** X7.  The number in a file name consists of decimal digits only, at
    least four of them, and exactly four for the first 9999 images; from
    10000 on the name grows instead of wrapping around, so no two numbers
    share a name. *)
Theorem format_04d_digits (n : nat) :
  forallb is_digit (format_04d n) = true
  /\ 4 <= length (format_04d n)
  /\ (n < 100 * 100 -> length (format_04d n) = 4)
  /\ forall n', format_04d n' = format_04d n -> n' = n.
Proof.
  split; [apply string_of_uint_digits|]. rewrite format_04d_length.
  split; [lia|]. split.
  - intros H. apply nb_digits_small in H. lia.
  - intros n'. apply format_04d_inj.
Qed.

(** ** A second pass over the output *)

Lemma digits_no_d (l : str) :
  forallb is_digit l = true -> Forall (fun c => c <> "d") l.
Proof.
  intros H. apply Forall_forall. intros c Hc ->.
  rewrite forallb_forall in H. specialize (H _ Hc). discriminate.
Qed.

Lemma extension_no_d (m : Match) :
  In (group1 m) subtypes -> Forall (fun c => c <> "d") (extension m).
Proof.
  intros H. apply extension_recognized in H. unfold extensions in H.
  simpl in H.
  repeat (destruct H as [<-|H]; [repeat constructor; discriminate|]).
  contradiction.
Qed.

Lemma prefix_without {A : Type} (x : A) (g l1 r1 r2 : list A) :
  g ++ r2 = l1 ++ x :: r1 -> ~ In x g -> exists d, l1 = g ++ d.
Proof.
  revert l1. induction g as [|a g IH]; intros l1 H N; simpl in *.
  - now exists l1.
  - destruct l1 as [|b l1]; simpl in H.
    + injection H as -> _. exfalso. apply N. now left.
    + injection H as -> H. destruct (IH l1 H) as (d & ->); [tauto|].
      now exists d.
Qed.

Lemma group0_no_dot (m : Match) :
  In (group1 m) subtypes -> forallb is_b64char (group2 m) = true ->
  ~ In "." (group0 m).
Proof.
  intros H1 H2. unfold group0. rewrite !in_app_iff. intros [H|[H|[H|H]]].
  - simpl in H. intuition discriminate.
  - unfold subtypes in H1. simpl in H1.
    repeat (destruct H1 as [E|H1];
            [rewrite <- E in H; simpl in H; intuition discriminate|]).
    contradiction.
  - simpl in H. intuition discriminate.
  - rewrite forallb_forall in H2. specialize (H2 _ H). discriminate.
Qed.

Section SecondPass.

Variable b64decode : str -> option bytes.
Variable writable : str -> bytes -> bool.
Variable leftover : str -> bytes -> option bytes.
Variable output_dir : str.

Hypothesis output_dir_no_colon : ~ In ":" output_dir.

Lemma reference_no_match (n : nat) (m : Match) (post : str) :
  In (group1 m) subtypes ->
  no_match_within (reference output_dir n m) post.
Proof.
  intros Hm. unfold reference.
  apply no_match_within_app. split; [|apply no_match_within_app; split].
  - apply no_d_no_match. repeat constructor; discriminate.
  - apply no_colon_no_match_gen; [|reflexivity].
    apply Forall_forall. intros c Hc ->. auto.
  - apply no_d_no_match. unfold filename.
    apply Forall_app. split; [repeat constructor; discriminate|].
    apply Forall_app. split; [repeat constructor; discriminate|].
    apply Forall_app. split; [apply digits_no_d, string_of_uint_digits|].
    apply Forall_app. split; [repeat constructor; discriminate|].
    now apply extension_no_d.
Qed.

(** The output of an error-free scan starts with the characters the text
    has before its first match, and goes on, if at all, with a dot. *)
Lemma render_prefix (s : str) (k : nat) :
  reported_errors (prints b64decode writable output_dir k (finditer s)) = [] ->
  exists chars tail tail',
    s = chars ++ tail
    /\ render b64decode writable output_dir k (finditer s) = chars ++ tail'
    /\ ((tail = [] /\ tail' = []) \/ exists r, tail' = "." :: r).
Proof.
  induction s as [|c tl Hm IH|m rest Hm Hr IH] using scan_ind.
  - intros _. exists [], [], []. simp finditer. simpl. auto.
  - rewrite (finditer_none _ _ Hm). cbn [prints render]. intros H.
    destruct (IH H) as (chars & tail & tail' & E1 & E2 & E3).
    exists (c :: chars), tail, tail'. simpl. rewrite <- E1, E2. auto.
  - destruct (finditer_some _ _ Hm) as (rest' & Hs & _ & Hf).
    apply app_inv_head in Hs. subst rest'. rewrite Hf.
    cbn [prints render]. intros H.
    destruct (extracted b64decode writable output_dir (k + 1) m);
      [|discriminate].
    exists [], (group0 m ++ rest). eexists. split; [reflexivity|].
    split; [reflexivity|]. right. unfold reference. simpl. eauto.
Qed.

Lemma rendered_no_match (s : str) (k : nat) :
  reported_errors (prints b64decode writable output_dir k (finditer s)) = [] ->
  no_match_within (render b64decode writable output_dir k (finditer s)) [].
Proof.
  revert k. induction s as [|c tl Hm IH|m rest Hm Hr IH] using scan_ind;
    intros k.
  - simp finditer. intros _. exact I.
  - rewrite (finditer_none _ _ Hm). cbn [prints render]. intros H.
    split; [|now apply IH]. rewrite app_nil_r.
    destruct (render_prefix tl k H) as (chars & tail & tail' & E1 & E2 & E3).
    rewrite E2.
    destruct (match_here (c :: chars ++ tail')) as [m'|] eqn:E; [|reflexivity].
    exfalso.
    destruct (match_here_spec _ _ E) as (H1 & H2 & H3 & rest' & Hs & _).
    destruct E3 as [[-> ->]|(r & ->)].
    + rewrite app_nil_r in E, E1. subst tl. congruence.
    + symmetry in Hs.
      destruct (prefix_without "." (group0 m') (c :: chars) r rest' Hs)
        as (d & Hd); [now apply group0_no_dot|].
      apply (data_uri_matches (group1 m') (group2 m') (d ++ tail) H1 H2 H3).
      rewrite <- Hm. f_equal. rewrite E1.
      change (c :: chars ++ tail) with ((c :: chars) ++ tail).
      rewrite Hd. unfold group0. now rewrite <- !app_assoc.
  - destruct (finditer_some _ _ Hm) as (rest' & Hs & _ & Hf).
    apply app_inv_head in Hs. subst rest'. rewrite Hf.
    cbn [prints render]. intros H.
    destruct (extracted b64decode writable output_dir (k + 1) m);
      [|discriminate].
    simpl in H. apply no_match_within_app. split; [|now apply IH].
    apply reference_no_match.
    now destruct (match_here_spec _ _ Hm) as (? & _).
Qed.

(** X8.  When the output directory's name has no colon and a run reported
    no error, a second run on the text it returned finds nothing to do: it
    returns that text unchanged, writes no file and reports a total of
    zero. *)
Theorem second_pass_unchanged (html : str) (w : World) :
  let r := extract_base64_images b64decode writable leftover html output_dir w in
  reported_errors (stdout (snd r)) = reported_errors (stdout w) ->
  extract_base64_images b64decode writable leftover (fst r) output_dir (snd r)
  = (fst r,
     mkWorld (dirs (snd r)) (files (snd r))
             (stdout (snd r) ++ [PStart; PTotal 0])).
Proof.
  intros r. subst r. rewrite extract_base64_images_run.
  cbn [fst snd stdout]. intros H.
  assert (E : reported_errors
                (prints b64decode writable output_dir 0 (finditer html)) = []).
  { change (PStart :: ?l) with ([PStart] ++ l) in H.
    rewrite !reported_errors_app in H. simpl in H.
    rewrite app_nil_r in H.
    rewrite <- (app_nil_r (reported_errors (stdout w))) in H at 2.
    now apply app_inv_head in H. }
  pose proof (rendered_no_match html 0 E) as N.
  set (out := render b64decode writable output_dir 0 (finditer html)) in *.
  set (w1 := mkWorld _ _ _).
  pose proof (extract_skip b64decode writable leftover output_dir out [] w1 N) as S.
  rewrite app_nil_r in S. rewrite S.
  unfold extract_base64_images, re_sub. simp finditer.
  cbn [sub_tokens fst snd]. rewrite app_nil_r. f_equal.
  assert (D : mkdir output_dir w1 = w1)
    by (apply (mkdir_again output_dir w); reflexivity).
  rewrite D. unfold print. cbn [dirs files stdout].
  now rewrite <- app_assoc.
Qed.

End SecondPass.

(** ** The file pipeline *)

Lemma stem_suffix_name (s : str) : path_stem s ++ path_suffix s = path_name s.
Proof.
  unfold path_stem, path_suffix.
  destruct (suffix_index (path_name s)) as [i|];
    [apply firstn_skipn|apply app_nil_r].
Qed.

Lemma default_output_length (s : str) :
  length (path_stem s ++ lit "_optimized" ++ path_suffix s)
  = length (path_name s) + 10.
Proof.
  rewrite <- (stem_suffix_name s), !length_app. simpl. lia.
Qed.

Lemma join_slash_two (p q : str) (ps : list str) :
  In "/" (join_slash (p :: q :: ps)).
Proof.
  change (join_slash (p :: q :: ps))
    with (p ++ lit "/" ++ join_slash (q :: ps)).
  apply in_app_iff. right. now left.
Qed.

Lemma path_root_slash (s rest : str) :
  is_absolute s = true -> In "/" (path_root s ++ rest).
Proof.
  unfold is_absolute, path_root. intros ->.
  destruct (starts_with "/" (tl s) && negb (starts_with "/" (tl (tl s))));
    now left.
Qed.

(** X9.  The default output path is never the input path.  The name
    [<stem>_optimized<suffix>] has no slash, [Path] leaves it as it is, and
    it differs from [str(Path(input_file))] for every [input_file]: the call
    does not open for writing the path it has just read. *)
Theorem default_output_differs_from_input (input_file : str) :
  let out := path_stem input_file ++ lit "_optimized" ++ path_suffix input_file in
  ~ In "/" out /\ path_str out = out /\ path_str out <> path_str input_file.
Proof.
  intros out.
  pose proof (default_output_no_slash input_file) as N.
  pose proof (default_output_length input_file) as L. fold out in N, L.
  assert (B : path_str out = out)
    by (apply bare_name_path; [exact N|lia]).
  split; [exact N|]. split; [exact B|]. rewrite B.
  intros E. rewrite E in N, L. unfold path_str, path_name in *.
  destruct (is_absolute input_file) eqn:A; [now apply N, path_root_slash|].
  destruct (path_parts input_file) as [|p [|q ps]].
  - simpl in L. lia.
  - simpl in L. lia.
  - apply N, join_slash_two.
Qed.

Section PipelineFacts.

Variable b64decode : str -> option bytes.
Variable writable : str -> bytes -> bool.
Variable leftover : str -> bytes -> option bytes.
Variable decode_text : bytes -> str.
Variable encode_text : str -> bytes.
Variable dir_size : nat.

(** X10.  On an input file of size zero the call never returns normally,
    with or without an output argument: whatever else happens, at the latest
    the reduction is computed by dividing by the original size, and the
    exception leaves the call before the closing report. *)
Theorem empty_input_raises (input_file : str) (output_file : option str)
    (w : World) :
  read_file (path_str input_file) (files w) = Some [] ->
  fst (process_html_file b64decode writable leftover decode_text encode_text
         dir_size input_file output_file w)
  = Raised.
Proof.
  intros Hin. unfold process_html_file, path_exists.
  cbn [print files]. rewrite Hin. cbn [negb].
  destruct (extract_base64_images_call _ _ _ _ _ _) as [[modified_html w1]|];
    [|reflexivity].
  now destruct (writable _ _).
Qed.

End PipelineFacts.

(** ** The further properties at concrete inputs *)

Definition never_writable (_ : str) (_ : bytes) : bool := false.

(** An [open] that creates the file and a write that fails at once. *)
Definition empty_leftover (_ : str) (_ : bytes) : option bytes := Some [].

Lemma unwritable_match_left_verbatim_witness :
  (match_here (lit "data:image/png;base64,QUJD'>")
   = Some (mkMatch (lit "png") (lit "QUJD"))
   /\ Base64.b64decode (lit "QUJD") = Some abc_bytes
   /\ never_writable (filepath (lit "images") (0 + 1) (mkMatch (lit "png") (lit "QUJD")))
        abc_bytes = false)
  /\ replace_base64 Base64.b64decode never_writable empty_leftover (lit "images")
       (mkMatch (lit "png") (lit "QUJD")) (0, empty_world)
     = (lit "data:image/png;base64,QUJD",
        (1, mkWorld [] [(lit "images/image_0001.png", [])] [PError 1])).
Proof.
  assert (H1 : match_here (lit "data:image/png;base64,QUJD'>")
               = Some (mkMatch (lit "png") (lit "QUJD"))) by reflexivity.
  assert (H2 : Base64.b64decode (lit "QUJD") = Some abc_bytes) by reflexivity.
  split; [repeat split; assumption|].
  exact (proj1 (unwritable_match_left_verbatim Base64.b64decode never_writable
                  empty_leftover (lit "images") _ _ 0 empty_world abc_bytes
                  H1 H2 eq_refl)).
Defined.

Lemma second_pass_unchanged_witness :
  (~ In ":" (lit "images")
   /\ reported_errors (stdout (snd (run_default three_images)))
      = reported_errors (stdout empty_world))
  /\ fst (extract_base64_images Base64.b64decode always_writable no_leftover
            (fst (run_default three_images)) (lit "images")
            (snd (run_default three_images)))
     = lit "<img src='./images/image_0001.png'><img src='./images/image_0002.jpeg'><img src='./images/image_0003.svg'>".
Proof.
  assert (H1 : ~ In ":" (lit "images")) by (simpl; intuition discriminate).
  assert (H2 : reported_errors (stdout (snd (run_default three_images)))
               = reported_errors (stdout empty_world)) by (vm_compute; reflexivity).
  split; [split; assumption|].
  pose proof (f_equal fst (second_pass_unchanged Base64.b64decode always_writable no_leftover
                             (lit "images") H1 three_images empty_world H2)) as H.
  cbn [fst] in H. unfold run_default. rewrite H. vm_compute. reflexivity.
Defined.

Definition empty_page_world : World := mkWorld [] [(lit "empty.html", [])] [].

Lemma empty_input_raises_witness :
  read_file (path_str (lit "empty.html")) (files empty_page_world) = Some []
  /\ fst (process_default (lit "empty.html") (Some (lit "out.html"))
            empty_page_world) = Raised.
Proof.
  assert (H1 : read_file (path_str (lit "empty.html")) (files empty_page_world)
               = Some []) by reflexivity.
  split; [exact H1|].
  exact (empty_input_raises Base64.b64decode always_writable no_leftover
           latin1_decode utf8_encode 4096 (lit "empty.html")
           (Some (lit "out.html")) empty_page_world H1).
Defined.

Lemma encoded_image_extracted_witness :
  (In (lit "webp") subtypes /\ abc_bytes <> []
   /\ Forall Base64Facts.is_byte abc_bytes
   /\ hd_b64 (lit "'>") = false
   /\ no_match_within (lit "<img src='")
        (group0 (mkMatch (lit "webp") (Base64.b64encode abc_bytes)) ++ lit "'>")
   /\ always_writable
        (filepath (lit "images") 1 (mkMatch (lit "webp") (Base64.b64encode abc_bytes)))
        abc_bytes = true)
  /\ read_file (lit "images/image_0001.webp")
       (files (snd (run_default (lit "<img src='data:image/webp;base64,QUJD'>"))))
     = Some abc_bytes.
Proof.
  assert (H1 : In (lit "webp") subtypes) by (simpl; tauto).
  assert (H2 : abc_bytes <> []) by discriminate.
  assert (H3 : Forall Base64Facts.is_byte abc_bytes)
    by (repeat constructor).
  assert (H4 : hd_b64 (lit "'>") = false) by reflexivity.
  assert (H5 : no_match_within (lit "<img src='")
                 (group0 (mkMatch (lit "webp") (Base64.b64encode abc_bytes))
                    ++ lit "'>"))
    by (simpl; repeat split; reflexivity).
  split; [repeat split; assumption|].
  exact (proj1 (encoded_image_extracted (lit "webp") (lit "<img src='")
                  (lit "'>") abc_bytes empty_world always_writable
                  no_leftover (lit "images") H1 H2 H3 H4 H5 eq_refl)).
Defined.

Lemma format_04d_digits_witness :
  42 < 100 * 100 /\ format_04d 42 = lit "0042" /\ length (format_04d 42) = 4.
Proof.
  assert (H : 42 < 100 * 100) by (simpl; lia).
  split; [exact H|]. split; [reflexivity|].
  exact (proj1 (proj2 (proj2 (format_04d_digits 42))) H).
Defined.

(** ** References and the files they name *)

Lemma read_file_unique (p : str) (d : bytes) (l fl : list (str * bytes)) :
  NoDup (map fst l) -> In (p, d) l -> read_file p (l ++ fl) = Some d.
Proof.
  induction l as [|[q e] l IH]; intros N H; [contradiction|].
  simpl in *. inversion N as [|? ? Hq N']; subst.
  destruct H as [H|H].
  - injection H as -> ->. now rewrite str_eqb_refl.
  - destruct (str_eqb q p) eqn:E; [|now apply IH].
    apply str_eqb_eq in E. subst q. exfalso. apply Hq.
    apply in_map_iff. now exists (p, d).
Qed.

Lemma reference_filepath (dir : str) (n : nat) (m : Match) :
  dir <> [] -> ends_with "/" dir = false ->
  reference dir n m = lit "./" ++ filepath dir n m.
Proof.
  intros Hne He. unfold reference, filepath, path_join.
  change (starts_with "/" (filename n m)) with false. cbv iota.
  destruct dir as [|c dir]; [contradiction|]. now rewrite He.
Qed.

Section References.

Variable b64decode : str -> option bytes.
Variable writable : str -> bytes -> bool.
Variable leftover : str -> bytes -> option bytes.
Variable output_dir : str.

Lemma spans_written (k : nat) (toks : list token) :
  Forall (fun s =>
            match s with
            | Replaced m r =>
                exists n d,
                  r = reference output_dir n m
                  /\ b64decode (group2 m) = Some d
                  /\ In (filepath output_dir n m, d)
                        (writes b64decode writable leftover output_dir k toks)
            | _ => True
            end)
         (spans_of b64decode writable output_dir k toks).
Proof.
  revert k. induction toks as [|[c|m] toks IH]; intros k; simpl.
  - constructor.
  - constructor; [exact I|apply IH].
  - constructor.
    + destruct (extracted b64decode writable output_dir (k + 1) m) as [d|] eqn:E;
        [|exact I].
      exists (k + 1), d. split; [reflexivity|].
      rewrite (attempted_extracted _ _ _ _ _ _ _ E). split; [|now left].
      unfold extracted in E. destruct (b64decode (group2 m)); [|discriminate].
      now destruct (writable _ _); [|discriminate].
    + eapply Forall_impl; [|apply (IH (k + 1))].
      intros [c|m'|m' r]; auto. intros (n & d & H1 & H2 & H3).
      exists n, d. repeat split; auto. apply in_app_iff. now right.
Qed.

(** X12.  When the output directory has a non-empty name that does not end
    in a slash, every reference a run puts into the text is [./] followed by
    the path of a file that, at the end of the run, holds exactly the decoded
    payload of the match the reference replaced. *)
Theorem references_name_written_files (html : str) (w : World) :
  output_dir <> [] -> ends_with "/" output_dir = false ->
  let r := extract_base64_images b64decode writable leftover html output_dir w in
  exists spans : list span,
    html = concat (map span_in spans)
    /\ fst r = concat (map span_out spans)
    /\ Forall (fun s =>
                 match s with
                 | Replaced m ref =>
                     exists p d,
                       ref = lit "./" ++ p
                       /\ b64decode (group2 m) = Some d
                       /\ read_file p (files (snd r)) = Some d
                 | _ => True
                 end) spans.
Proof.
  intros Hne He r. subst r.
  exists (spans_of b64decode writable output_dir 0 (finditer html)).
  rewrite extract_base64_images_run, spans_of_in, spans_of_out, finditer_text.
  cbn [fst snd files]. split; [reflexivity|]. split; [reflexivity|].
  eapply Forall_impl; [|apply spans_written].
  intros [c|m|m ref]; auto. intros (n & d & -> & Hd & Hin).
  exists (filepath output_dir n m), d.
  split; [now apply reference_filepath|]. split; [exact Hd|].
  apply read_file_unique.
  - rewrite map_rev. apply NoDup_rev, writes_NoDup.
  - now apply in_rev in Hin.
Qed.

End References.

Lemma references_name_written_files_witness :
  (lit "images" <> [] /\ ends_with "/" (lit "images") = false)
  /\ exists spans : list span,
       three_images = concat (map span_in spans)
       /\ fst (run_default three_images) = concat (map span_out spans)
       /\ Forall (fun s =>
                    match s with
                    | Replaced m ref =>
                        exists p d,
                          ref = lit "./" ++ p
                          /\ Base64.b64decode (group2 m) = Some d
                          /\ read_file p (files (snd (run_default three_images)))
                             = Some d
                    | _ => True
                    end) spans.
Proof.
  assert (H1 : lit "images" <> []) by discriminate.
  split; [split; [exact H1|reflexivity]|].
  exact (references_name_written_files Base64.b64decode always_writable no_leftover
           (lit "images") three_images empty_world H1 eq_refl).
Defined.
